(** * MemStore: a shallow embedding of [src/os/MemStore.h]

    The header declares the in-memory object store of Ceph: the polymorphic
    [Object] with its two payload variants, the [Collection] with its two
    indices over the same objects, and the omap iterator.  This file embeds
    those definitions and proves the properties the specification states
    about them.

    Layout: part I holds the definitions (wire format, containers, objects,
    collections, iterator), part II the lemmas and theorems. *)

From Stdlib Require Import NArith List String Ascii Lia.
From Stdlib.Strings Require Import Byte.
From stdpp Require Import gmap strings list sorting fin_maps.

Local Open Scope N_scope.

(** * Part I: definitions *)

(** ** Buffers and fixed-width integers *)

(** The contents of a [bufferlist] and of a [bufferptr] are byte strings.
    [uint8_t], [uint32_t], [uint64_t] and [size_t] values are naturals of
    type [N]; every place where the code narrows or overflows writes the
    reduction modulo [2^w] out. *)
Abbreviation bufferlist := (list byte).
Abbreviation bufferptr := (list byte).

Definition u32_max : N := 2 ^ 32.
Definition u64_max : N := 2 ^ 64.

Definition byte_of_N (n : N) : byte := default x00 (Byte.of_N (n mod 256)).

(** Little-endian image of an integer on [w] bytes, and its inverse. *)
Fixpoint le_bytes (w : nat) (n : N) : list byte :=
  match w with
  | O => []
  | S w' => byte_of_N n :: le_bytes w' (n / 256)
  end.

Fixpoint le_value (bs : list byte) : N :=
  match bs with
  | [] => 0
  | b :: bs' => Byte.to_N b + 256 * le_value bs'
  end.

(** ** Decoding: a cursor over the remaining bytes, with exceptions *)

(** [bufferlist::iterator& p] is the list of bytes not yet consumed.  A
    decoder either returns a value and the advanced cursor or throws one of
    the [buffer::error] exceptions. *)
Inductive buffer_error := end_of_buffer | malformed_input.

Inductive result (A : Type) :=
  | Ok (a : A)
  | Throw (e : buffer_error).
Arguments Ok {A} a.
Arguments Throw {A} e.

Definition Decoder (A : Type) : Type := bufferlist → result (A * bufferlist).

Definition bindD {A B} (m : result (A * bufferlist)) (k : A → Decoder B)
  : result (B * bufferlist) :=
  match m with
  | Ok (a, p) => k a p
  | Throw e => Throw e
  end.

Notation "'do' x , p <- m ; k" := (bindD m (λ x p, k))
  (at level 10, x name, p name, m at level 100, k at level 200,
   only parsing).

(** [p.copy(n, ...)]: the next [n] bytes, or [end_of_buffer]. *)
Definition copy_out (n : nat) : Decoder (list byte) := λ p,
  if decide (n ≤ length p)%nat then Ok (take n p, drop n p)
  else Throw end_of_buffer.

(** ** The [::encode]/[::decode] overloads

    Modelled from the spec: the primitive encoders and the versioning macros
    live in [include/encoding.h], which is not part of the sources at hand.
    The spec fixes their shape: "All integers fixed-width, all
    variable-length fields length-prefixed, every aggregate preceded by a
    (structure-version, min-compatible-version) pair". *)
Class Encodable (A : Type) := {
  encode : A → bufferlist → bufferlist;
  decode : Decoder A;
}.

(** What a lawful [Encodable] gives: [encode] appends to the buffer, and
    [decode] reads back every value that fits the format. *)
Class Wire (A : Type) `{Encodable A} := {
  fits : A → Prop;
  encode_app (x : A) (bl : bufferlist) : encode x bl = bl ++ encode x [];
  decode_encode (x : A) (rest : bufferlist) :
    fits x → decode (encode x [] ++ rest) = Ok (x, rest);
}.

(** A [w]-byte integer travels as its low [w] bytes. *)
Definition encode_uint (w : nat) (n : N) (bl : bufferlist) : bufferlist :=
  bl ++ le_bytes w n.
Definition decode_uint (w : nat) : Decoder N := λ p,
  do bs, p <- copy_out w p; Ok (le_value bs, p).

Definition encode_u8 := encode_uint 1.
Definition decode_u8 := decode_uint 1.
Definition encode_u32 := encode_uint 4.
Definition decode_u32 := decode_uint 4.
Definition encode_u64 := encode_uint 8.
Definition decode_u64 := decode_uint 8.

Definition encode_bool (b : bool) : bufferlist → bufferlist :=
  encode_u8 (if b then 1 else 0).
Definition decode_bool : Decoder bool := λ p,
  do n, p <- decode_u8 p; Ok (negb (n =? 0), p).

(** A byte string travels as its 32-bit length followed by its bytes. *)
Definition encode_bytes (b : list byte) (bl : bufferlist) : bufferlist :=
  encode_u32 (N.of_nat (length b) mod u32_max) bl ++ b.
Definition decode_bytes : Decoder (list byte) := λ p,
  do len, p <- decode_u32 p; copy_out (N.to_nat len) p.

#[export] Instance Encodable_bytes : Encodable (list byte) :=
  {| encode := encode_bytes; decode := decode_bytes |}.

Definition encode_string (s : string) : bufferlist → bufferlist :=
  encode_bytes (list_byte_of_string s).
Definition decode_string : Decoder string := λ p,
  do b, p <- decode_bytes p; Ok (string_of_list_byte b, p).

#[export] Instance Encodable_string : Encodable string :=
  {| encode := encode_string; decode := decode_string |}.

(** ** [std::map]: a finite map walked in key order *)

(** The strict order of the map's [Compare] parameter. *)
Class Comparator (K : Type) := less : K → K → bool.

(** [std::less<std::string>]: lexicographic on unsigned bytes. *)
#[export] Instance less_string : Comparator string := String.ltb.

(** The sequence [begin() .. end()]. *)
Definition inorder `{Countable K} `{Comparator K} {V} (m : gmap K V)
  : list (K * V) :=
  merge_sort (λ x y, ¬ less y.1 x.1) (map_to_list m).

(** A list that holds exactly the keys of a map, each once, in strictly
    ascending order. *)
Definition keys_ascending `{Countable K} `{Comparator K} {V}
    (m : gmap K V) (l : list K) : Prop :=
  (∀ k, k ∈ l ↔ k ∈ dom m) ∧
  (∀ i j a b, (i < j)%nat → l !! i = Some a → l !! j = Some b → less a b).

(** An iterator is its distance from [begin()]; [end()] is [size()]. *)
Definition map_end `{Countable K} {V} (m : gmap K V) : nat := size m.

(** Index of the first entry whose key satisfies [stop], [length l] if none. *)
Fixpoint first_index {K V} (stop : K → bool) (l : list (K * V)) : nat :=
  match l with
  | [] => O
  | e :: l' => if stop e.1 then O else S (first_index stop l')
  end.

(** [m.lower_bound(k)]: the first element whose key is not less than [k]. *)
Definition map_lower_bound `{Countable K} `{Comparator K} {V}
    (m : gmap K V) (k : K) : nat :=
  first_index (λ k', negb (less k' k)) (inorder m).

(** [m.upper_bound(k)]: the first element whose key is greater than [k]. *)
Definition map_upper_bound `{Countable K} `{Comparator K} {V}
    (m : gmap K V) (k : K) : nat :=
  first_index (λ k', less k k') (inorder m).

(** [template<class T, class U> encode(const std::map<T,U>&, bufferlist&)]:
    the 32-bit entry count, then each key and value in key order. *)
Definition encode_map `{Countable K} `{Comparator K} `{Encodable K}
    `{Encodable V} (m : gmap K V) (bl : bufferlist) : bufferlist :=
  foldl (λ bl e, encode e.2 (encode e.1 bl))
        (encode_u32 (N.of_nat (size m) mod u32_max) bl) (inorder m).

(** [while (n--) { decode(k, p); decode(m[k], p); }] *)
Fixpoint decode_map_entries `{Countable K} `{Encodable K} `{Encodable V}
    (n : nat) (m : gmap K V) : Decoder (gmap K V) := λ p,
  match n with
  | O => Ok (m, p)
  | S n' =>
      do k, p <- decode p;
      do v, p <- decode p;
      decode_map_entries n' (<[k := v]> m) p
  end.

Definition decode_map `{Countable K} `{Encodable K} `{Encodable V}
  : Decoder (gmap K V) := λ p,
  do n, p <- decode_u32 p; decode_map_entries (N.to_nat n) ∅ p.

#[export] Instance Encodable_map `{Countable K} `{Comparator K}
    `{Encodable K} `{Encodable V} : Encodable (gmap K V) :=
  {| encode := encode_map; decode := decode_map |}.

(** One turn of the loop of [encode_map]. *)
Definition encode_entry `{Encodable K} `{Encodable V} (bl : bufferlist)
    (e : K * V) : bufferlist :=
  encode e.2 (encode e.1 bl).

(** The values that the format can carry: lengths and counts below [2^32],
    64-bit integers below [2^64]. *)
Definition fits_u64 (n : N) : Prop := n < u64_max.
Definition fits_bytes (b : list byte) : Prop := N.of_nat (length b) < u32_max.
Definition fits_string (s : string) : Prop :=
  fits_bytes (list_byte_of_string s).
Definition fits_map `{Countable K} {V} (fits_key : K → Prop)
    (fits_value : V → Prop) (m : gmap K V) : Prop :=
  N.of_nat (size m) < u32_max ∧
  map_Forall (λ k v, fits_key k ∧ fits_value v) m.

(** The image of a versioned structure, in the words of the spec: the
    (version, min-compatible-version, length) header, then the payload. *)
Definition envelope (v compat : N) (payload : list byte) : list byte :=
  le_bytes 1 v ++ le_bytes 1 compat
  ++ le_bytes 4 (N.of_nat (length payload) mod u32_max) ++ payload.

(** [uint64_t] is the integer type that travels on its own (page indices,
    [data_len]); 8-bit and 32-bit fields call their encoder by name. *)
#[export] Instance Encodable_u64 : Encodable N :=
  {| encode := encode_u64; decode := decode_u64 |}.
#[export] Instance less_N : Comparator N := N.ltb.

(** ** The versioned envelope

    Modelled from the spec: [ENCODE_START], [ENCODE_FINISH], [DECODE_START]
    and [DECODE_FINISH] are macros of [include/encoding.h], which is not part
    of the sources.  The spec: "write (version, min-compatible-version,
    length) header, then payload; on decode, read header, validate
    min-compatible-version against supported version, bound-check length
    before consuming payload, fail with a decode error otherwise". *)

(** Writes the header with a zero length and remembers where the length
    field starts. *)
Definition ENCODE_START (v compat : N) (bl : bufferlist) : bufferlist * nat :=
  let bl := encode_u8 v bl in
  let bl := encode_u8 compat bl in
  let bl := encode_u32 0 bl in
  (bl, (length bl - 4)%nat).

(** [it.copy_in(len, src)]: overwrite in place. *)
Definition copy_in (pos : nat) (src : list byte) (bl : bufferlist)
  : bufferlist :=
  take pos bl ++ src ++ drop (pos + length src) bl.

(** Patches the length field with the number of bytes written since. *)
Definition ENCODE_FINISH (struct_len_it : nat) (bl : bufferlist)
  : bufferlist :=
  let struct_len :=
    N.of_nat (length bl - struct_len_it - 4) mod u32_max in
  copy_in struct_len_it (le_bytes 4 struct_len) bl.

(** Reads the header; [v] is the version the decoder implements.  Returns
    [struct_v] and the number of bytes that remain after the structure
    ([struct_end], counted from the end of the buffer). *)
Definition DECODE_START (v : N) : Decoder (N * nat) := λ p,
  do struct_v, p <- decode_u8 p;
  do struct_compat, p <- decode_u8 p;
  if v <? struct_compat then Throw malformed_input else
  do struct_len, p <- decode_u32 p;
  if (N.of_nat (length p) <? struct_len) then Throw malformed_input else
  Ok ((struct_v, (length p - N.to_nat struct_len)%nat), p).

(** Fails when the body read past the declared end, skips what it left. *)
Definition DECODE_FINISH (struct_end : nat) : Decoder unit := λ p,
  if decide (length p < struct_end)%nat then Throw malformed_input
  else Ok (tt, drop (length p - struct_end) p).

(** ** PageSet

    Modelled from the spec: [PageSet.h] is not part of the sources.  The
    spec: "data is split into fixed-size pages (size fixed per collection,
    chosen at object creation); pages are allocated lazily -- an unwritten
    page has no storage and reads as zero".  A page set is its page size and
    the allocated pages by page index; it travels as the page size followed
    by the pages, in the conventions of the format (fixed-width integers,
    length-prefixed byte strings). *)
Module PageSet.

Record t := { page_size : N; pages : gmap N (list byte) }.

Definition create (page_size : N) : t :=
  {| page_size := page_size; pages := ∅ |}.

Definition encode (ps : t) (bl : bufferlist) : bufferlist :=
  encode_map (pages ps) (encode_u64 (page_size ps) bl).

Definition decode : Decoder t := λ p,
  do sz, p <- decode_u64 p;
  do pg, p <- decode_map p;
  Ok ({| page_size := sz; pages := pg |}, p).

Definition fits (ps : t) : Prop :=
  fits_u64 (page_size ps) ∧ fits_map fits_u64 fits_bytes (pages ps).

End PageSet.

(** ** Objects *)

Module Object.

(** The data members of [struct Object]. *)
Record base := {
  xattr : gmap string bufferptr;
  omap_header : bufferlist;
  omap : gmap string bufferlist;
}.

(** The two subclasses: each is the base part and its own members. *)
Inductive t :=
  | BufferlistObject (b : base) (data : bufferlist)
  | PageSetObject (b : base) (data : PageSet.t) (data_len : N).

Definition base_of (o : t) : base :=
  match o with
  | BufferlistObject b _ => b
  | PageSetObject b _ _ => b
  end.

Definition empty_base : base :=
  {| xattr := ∅; omap_header := []; omap := ∅ |}.

(** [new BufferlistObject()] and [new PageSetObject(page_size)]. *)
Definition new_BufferlistObject : t := BufferlistObject empty_base [].
Definition new_PageSetObject (page_size : N) : t :=
  PageSetObject empty_base (PageSet.create page_size) 0.

(** [data.length()] for the buffer, [data_len] for the page set. *)
Definition get_size (o : t) : N :=
  match o with
  | BufferlistObject _ data => N.of_nat (length data)
  | PageSetObject _ _ data_len => data_len
  end.

Definition encode_base (b : base) (bl : bufferlist) : bufferlist :=
  let bl := encode (xattr b) bl in
  let bl := encode (omap_header b) bl in
  encode (omap b) bl.

Definition decode_base : Decoder base := λ p,
  do x, p <- decode p;
  do h, p <- decode p;
  do m, p <- decode p;
  Ok ({| xattr := x; omap_header := h; omap := m |}, p).






(** [true] for the paged variant. *)
Definition is_paged (o : t) : bool :=
  match o with
  | BufferlistObject _ _ => false
  | PageSetObject _ _ _ => true
  end.

(** The fields of an object in the order the spec gives them: the
    payload-specific ones, then attributes, omap header, omap. *)
Definition common_fields (b : base) : list byte :=
  encode (xattr b) [] ++ encode (omap_header b) [] ++ encode (omap b) [].

Definition fields (o : t) : list byte :=
  match o with
  | BufferlistObject b data => encode data [] ++ common_fields b
  | PageSetObject b data data_len =>
      encode_u64 data_len [] ++ PageSet.encode data [] ++ common_fields b
  end.

Definition fits_base (b : base) : Prop :=
  fits_map fits_string fits_bytes (xattr b) ∧ fits_bytes (omap_header b) ∧
  fits_map fits_string fits_bytes (omap b).

(** An object that the format can carry: every field fits, and so does
    the length of the whole, which goes into the envelope. *)
Definition fits (o : t) : Prop :=
  match o with
  | BufferlistObject b data => fits_bytes data ∧ fits_base b
  | PageSetObject b data data_len =>
      fits_u64 data_len ∧ PageSet.fits data ∧ fits_base b
  end ∧ fits_bytes (fields o).

(** The virtual [encode]: dispatch on the dynamic type. *)
Definition encode (o : t) (bl : bufferlist) : bufferlist :=
  match o with
  | BufferlistObject b data =>
      let '(bl, pos) := ENCODE_START 1 1 bl in
      let bl := encode data bl in
      let bl := encode_base b bl in
      ENCODE_FINISH pos bl
  | PageSetObject b data data_len =>
      let '(bl, pos) := ENCODE_START 1 1 bl in
      let bl := encode_u64 data_len bl in
      let bl := PageSet.encode data bl in
      let bl := encode_base b bl in
      ENCODE_FINISH pos bl
  end.

(** The virtual [decode]: the receiver fixes the variant, every member is
    overwritten from the stream. *)
Definition decode (o : t) : Decoder t := λ p,
  match o with
  | BufferlistObject _ _ =>
      do hd, p <- DECODE_START 1 p;
      do data, p <- decode p;
      do b, p <- decode_base p;
      do _u, p <- DECODE_FINISH hd.2 p;
      Ok (BufferlistObject b data, p)
  | PageSetObject _ _ _ =>
      do hd, p <- DECODE_START 1 p;
      do data_len, p <- decode_u64 p;
      do data, p <- PageSet.decode p;
      do b, p <- decode_base p;
      do _u, p <- DECODE_FINISH hd.2 p;
      Ok (PageSetObject b data data_len, p)
  end.

Definition set_omap (m : gmap string bufferlist) (o : t) : t :=
  let b := base_of o in
  let b' := {| xattr := xattr b; omap_header := omap_header b; omap := m |} in
  match o with
  | BufferlistObject _ data => BufferlistObject b' data
  | PageSetObject _ data data_len => PageSetObject b' data data_len
  end.

(** Modelled from the spec: the handler [_omap_setkeys] is defined in
    [MemStore.cc], which is not part of the sources.  The spec lists
    [omap_setkeys] among the operations that "mutate the ordered omap";
    every pair of [aset] is stored under its key. *)
Definition omap_setkeys (aset : gmap string bufferlist) (o : t) : t :=
  set_omap (aset ∪ omap (base_of o)) o.

End Object.

(** ** The heap of objects

    [ObjectRef] is [boost::intrusive_ptr<Object>]: an address, or null.  The
    objects live in a heap shared by everything that holds a reference.
    Reference counts are not modelled: a cell that nothing refers to any
    more stays in the heap as garbage.  Operations that dereference return
    [None] where the C++ behaviour is undefined (null or dangling pointer). *)
Abbreviation addr := positive.
Abbreviation ObjectRef := (option addr).
Abbreviation Heap := (gmap addr Object.t).

Definition new (o : Object.t) (h : Heap) : ObjectRef * Heap :=
  let a := fresh (dom h) in (Some a, <[a := o]> h).

Definition deref (h : Heap) (r : ObjectRef) : option Object.t :=
  match r with
  | Some a => h !! a
  | None => None
  end.

(** Assignment through a reference. *)
Definition store (r : ObjectRef) (o : Object.t) (h : Heap) : Heap :=
  match r with
  | Some a => <[a := o]> h
  | None => h
  end.

(** [::encode]/[::decode] at [map<string,bufferptr>], the type of both
    [xattr] members. *)
Definition wire_encode_xattr : gmap string bufferptr → bufferlist → bufferlist
  := encode.
Definition wire_decode_xattr : Decoder (gmap string bufferptr) := decode.

(** [cct->_conf]: the two options the header reads. *)
Record md_config_t := {
  memstore_page_set : bool;
  memstore_page_size : N;
}.
Record CephContext := { _conf : md_config_t }.

(** ** Collections *)

Module Collection.

(** What happened to the [RWLock] member, oldest first. *)
Inductive lock_event := get_read | get_write | unlock.


Section collection.
Context `{Countable ghobject_t}.

(** [object_hash] is the unordered map, [object_map] the [std::map]
    ordered by [ghobject_t::BitwiseComparator]; walks of [object_map]
    go through [inorder]. *)
Record t := {
  cct : CephContext;
  use_page_set : bool;
  object_hash : gmap ghobject_t ObjectRef;
  object_map : gmap ghobject_t ObjectRef;
  xattr : gmap string bufferptr;
  lock : list lock_event;
}.

Definition set_indices (oh om : gmap ghobject_t ObjectRef) (c : t) : t :=
  {| cct := cct c; use_page_set := use_page_set c;
     object_hash := oh; object_map := om;
     xattr := xattr c; lock := lock c |}.

Definition set_xattr (x : gmap string bufferptr) (c : t) : t :=
  {| cct := cct c; use_page_set := use_page_set c;
     object_hash := object_hash c; object_map := object_map c;
     xattr := x; lock := lock c |}.

Definition set_use_page_set (b : bool) (c : t) : t :=
  {| cct := cct c; use_page_set := b;
     object_hash := object_hash c; object_map := object_map c;
     xattr := xattr c; lock := lock c |}.

(** The lock guards: the constructor takes the lock, the destructor at
    the end of the scope releases it. *)
Definition log (e : lock_event) (c : t) : t :=
  {| cct := cct c; use_page_set := use_page_set c;
     object_hash := object_hash c; object_map := object_map c;
     xattr := xattr c; lock := lock c ++ [e] |}.
Definition RLocker : t → t := log get_read.
Definition WLocker : t → t := log get_write.
Definition release : t → t := log unlock.

(** [Collection(CephContext *cct)] *)
Definition create (cct : CephContext) : t :=
  {| cct := cct; use_page_set := memstore_page_set (_conf cct);
     object_hash := ∅; object_map := ∅; xattr := ∅; lock := [] |}.

(** [create_object]: the object that the [new] expression constructs,
    and its allocation. *)
Definition new_object (c : t) : Object.t :=
  if use_page_set c
  then Object.new_PageSetObject (memstore_page_size (_conf (cct c)))
  else Object.new_BufferlistObject.

Definition create_object (c : t) (h : Heap) : ObjectRef * Heap :=
  new (new_object c) h.

Definition get_object (oid : ghobject_t) (c : t) : ObjectRef * t :=
  let c := RLocker c in
  match object_hash c !! oid with
  | None => (None, release c)
  | Some o => (o, release c)
  end.

(** [m.emplace(k, v)] and [m.insert(make_pair(k, v))]: no effect when
    the key is there; the flag tells whether the pair went in. *)
Definition emplace {V} (k : ghobject_t) (v : V) (m : gmap ghobject_t V)
  : gmap ghobject_t V * bool :=
  match m !! k with
  | Some _ => (m, false)
  | None => (<[k := v]> m, true)
  end.

Definition get_or_create_object (oid : ghobject_t) (c : t) (h : Heap)
  : ObjectRef * t * Heap :=
  let c := WLocker c in
  let '(oh, inserted) := emplace oid None (object_hash c) in
  if inserted then
    let '(o, h) := create_object c h in
    let c := set_indices (<[oid := o]> oh) (<[oid := o]> (object_map c)) c in
    (o, release c, h)
  else
    (default None (oh !! oid), release c, h).

Context `{BitwiseComparator : Comparator ghobject_t}.
Context `{Encodable ghobject_t}.

(** The loop of [encode] over [object_map]; [None] when an entry holds a
    reference that cannot be dereferenced. *)
Fixpoint encode_objects (h : Heap) (l : list (ghobject_t * ObjectRef))
    (bl : bufferlist) : option bufferlist :=
  match l with
  | [] => Some bl
  | (k, r) :: l' =>
      match deref h r with
      | Some o => encode_objects h l' (Object.encode o (encode k bl))
      | None => None
      end
  end.

(** What the loop appends for one entry, and for a list of entries. *)
Definition entry_image (h : Heap) (e : ghobject_t * ObjectRef) : list byte :=
  encode e.1 [] ++ from_option (λ o, Object.encode o []) [] (deref h e.2).
Definition entries_image (h : Heap) (l : list (ghobject_t * ObjectRef))
  : list byte :=
  concat (entry_image h <$> l).

(** A collection that the format can carry and that [decode] rebuilds:
    attributes, keys, objects and the object count fit, every reference is
    live, and every object has the variant that [use_page_set] names (as
    [create_object] makes them). *)
Definition fits `{!Wire ghobject_t} (h : Heap) (c : t) : Prop :=
  fits_map fits_string fits_bytes (xattr c) ∧
  N.of_nat (size (object_map c)) < u32_max ∧
  map_Forall (λ k r, fits k ∧ ∃ o, deref h r = Some o ∧ Object.fits o ∧
                                   Object.is_paged o = use_page_set c)
             (object_map c).

(** The fields of a collection in the order the spec gives them:
    attributes, payload-variant flag, object count, then each key and
    object in iteration order. *)
Definition fields (h : Heap) (c : t) : list byte :=
  wire_encode_xattr (xattr c) [] ++ encode_bool (use_page_set c) []
  ++ le_bytes 4 (N.of_nat (size (object_map c)) mod u32_max)
  ++ entries_image h (inorder (object_map c)).

Definition encode (h : Heap) (c : t) (bl : bufferlist)
  : option bufferlist :=
  let '(bl, pos) := ENCODE_START 1 1 bl in
  let bl := wire_encode_xattr (xattr c) bl in
  let bl := encode_bool (use_page_set c) bl in
  let s := N.of_nat (size (object_map c)) mod u32_max in
  let bl := encode_u32 s bl in
  match encode_objects h (inorder (object_map c)) bl with
  | Some bl => Some (ENCODE_FINISH pos bl)
  | None => None
  end.

(** The [while (s--)] loop of [decode].  The collection and the heap are
    updated in place, so they are returned also when an exception leaves
    the loop. *)
Fixpoint decode_objects (s : nat) (c : t) (h : Heap) (p : bufferlist)
  : t * Heap * result (unit * bufferlist) :=
  match s with
  | O => (c, h, Ok (tt, p))
  | S s' =>
      match decode p with
      | Throw e => (c, h, Throw e)
      | Ok (k, p) =>
          let '(o, h) := create_object c h in
          (* [o->decode(p)] on the object just constructed *)
          match Object.decode (new_object c) p with
          | Throw e => (c, h, Throw e)
          | Ok (obj, p) =>
              let h := store o obj h in
              let om := (emplace k o (object_map c)).1 in
              let oh := (emplace k o (object_hash c)).1 in
              decode_objects s' (set_indices oh om c) h p
          end
      end
  end.

Definition decode (c : t) (h : Heap) (p : bufferlist)
  : t * Heap * result (unit * bufferlist) :=
  match DECODE_START 1 p with
  | Throw e => (c, h, Throw e)
  | Ok (hd, p) =>
  match wire_decode_xattr p with
  | Throw e => (c, h, Throw e)
  | Ok (x, p) =>
  let c := set_xattr x c in
  match decode_bool p with
  | Throw e => (c, h, Throw e)
  | Ok (b, p) =>
  let c := set_use_page_set b c in
  match decode_u32 p with
  | Throw e => (c, h, Throw e)
  | Ok (s, p) =>
  match decode_objects (N.to_nat s) c h p with
  | (c, h, Throw e) => (c, h, Throw e)
  | (c, h, Ok (_, p)) => (c, h, DECODE_FINISH hd.2 p)
  end end end end end.

(** [used_bytes]: a 64-bit accumulator over [object_map]. *)
Fixpoint used_bytes_loop (h : Heap) (l : list (ghobject_t * ObjectRef))
    (result : N) : option N :=
  match l with
  | [] => Some result
  | (_, r) :: l' =>
      match deref h r with
      | Some o =>
          used_bytes_loop h l' ((result + Object.get_size o) mod u64_max)
      | None => None
      end
  end.

Definition used_bytes (h : Heap) (c : t) : option N * t :=
  (used_bytes_loop h (inorder (object_map c)) 0, c).

(** Every reference of [object_map] points to an object of the heap. *)
Definition live (h : Heap) (c : t) : Prop :=
  map_Forall (λ _ r, is_Some (deref h r)) (object_map c).

(** Every object of [object_map] has the variant that [use_page_set]
    names. *)
Definition homogeneous (h : Heap) (c : t) : Prop :=
  map_Forall (λ _ r, ∀ o, deref h r = Some o →
                          Object.is_paged o = use_page_set c)
             (object_map c).

(** The invariant of the two indices: the same keys in both. *)
Definition indices_agree (c : t) : Prop :=
  dom (object_hash c) = dom (object_map c).

(** The sum that the specification gives for [used_bytes]: [get_size()]
    added up over the objects of the index, as a natural number. *)
Definition sumN (l : list N) : N := foldr N.add 0 l.
Definition size_at (h : Heap) (r : ObjectRef) : N :=
  from_option Object.get_size 0 (deref h r).
Definition total_size (h : Heap) (c : t) : N :=
  sumN ((λ e, size_at h e.2) <$> map_to_list (object_map c)).

(** A call of one of the methods above, and its effect on the collection
    and the heap. *)
Inductive method :=
  | call_get_object (oid : ghobject_t)
  | call_get_or_create_object (oid : ghobject_t)
  | call_encode (bl : bufferlist)
  | call_decode (p : bufferlist)
  | call_used_bytes.

Definition invoke (m : method) (s : t * Heap) : t * Heap :=
  match m with
  | call_get_object oid => ((get_object oid s.1).2, s.2)
  | call_get_or_create_object oid =>
      let '(_, c, h) := get_or_create_object oid s.1 s.2 in (c, h)
  | call_encode _ => s
  | call_decode p => (decode s.1 s.2 p).1
  | call_used_bytes => ((used_bytes s.2 s.1).2, s.2)
  end.

Definition invoke_all (ms : list method) (s : t * Heap) : t * Heap :=
  foldl (λ s m, invoke m s) s ms.

End collection.

Arguments t ghobject_t {_ _}.
Arguments method ghobject_t : clear implicits.

End Collection.

(** ** The store: the handlers that touch the indices

    Modelled from the spec: the transaction handlers are defined in
    [MemStore.cc], which is not part of the sources; the header only
    declares them.  The spec's operation table: "remove | delete object from
    both collection indices", "collection_add / collection_move_rename |
    move an object between collections, optionally renaming its key",
    "create_collection / destroy_collection | insert/remove from the store
    registry"; a handler returns "zero for success, a negative error code
    for failure (e.g., target collection or object absent ...)". *)
Module MemStore.

Definition ENOENT : Z := 2.
Definition EEXIST : Z := 17.

Section store.
Context `{Countable coll_t} `{Countable ghobject_t}.
Context `{BitwiseComparator : Comparator ghobject_t}.
Context `{Encodable ghobject_t}.

Record t := {
  cct : CephContext;
  coll_map : gmap coll_t (Collection.t ghobject_t);
  heap : Heap;
}.

Definition set_coll_map (cm : gmap coll_t (Collection.t ghobject_t))
    (st : t) : t :=
  {| cct := cct st; coll_map := cm; heap := heap st |}.

(** [MemStore(cct, path)]: no collection yet. *)
Definition create (cct : CephContext) : t :=
  {| cct := cct; coll_map := ∅; heap := ∅ |}.

Definition _create_collection (cid : coll_t) (st : t) : Z * t :=
  match coll_map st !! cid with
  | Some _ => ((- EEXIST)%Z, st)
  | None =>
      (0%Z, set_coll_map (<[cid := Collection.create (cct st)]> (coll_map st)) st)
  end.

Definition erase (oid : ghobject_t) (c : Collection.t ghobject_t)
  : Collection.t ghobject_t :=
  Collection.set_indices (delete oid (Collection.object_hash c))
                         (delete oid (Collection.object_map c)) c.

Definition link (oid : ghobject_t) (o : ObjectRef)
    (c : Collection.t ghobject_t) : Collection.t ghobject_t :=
  Collection.set_indices (<[oid := o]> (Collection.object_hash c))
                         (<[oid := o]> (Collection.object_map c)) c.

Definition _remove (cid : coll_t) (oid : ghobject_t) (st : t) : Z * t :=
  match coll_map st !! cid with
  | None => ((- ENOENT)%Z, st)
  | Some c =>
      match Collection.object_hash c !! oid with
      | None => ((- ENOENT)%Z, st)
      | Some _ =>
          (0%Z, set_coll_map (<[cid := erase oid c]> (coll_map st)) st)
      end
  end.

Definition _collection_move_rename (oldcid : coll_t) (oldoid : ghobject_t)
    (cid : coll_t) (oid : ghobject_t) (st : t) : Z * t :=
  match coll_map st !! cid, coll_map st !! oldcid with
  | Some c, Some oc =>
      match Collection.object_hash c !! oid,
            Collection.object_hash oc !! oldoid with
      | Some _, _ => ((- EEXIST)%Z, st)
      | None, None => ((- ENOENT)%Z, st)
      | None, Some o =>
          let cm := <[cid := link oid o c]> (coll_map st) in
          let cm := alter (erase oldoid) oldcid cm in
          (0%Z, set_coll_map cm st)
      end
  | _, _ => ((- ENOENT)%Z, st)
  end.

(** One step of the store: a handler, or a method of a collection. *)
Inductive call :=
  | call_create_collection (cid : coll_t)
  | call_remove (cid : coll_t) (oid : ghobject_t)
  | call_collection_move_rename (oldcid : coll_t) (oldoid : ghobject_t)
                                (cid : coll_t) (oid : ghobject_t)
  | call_method (cid : coll_t) (m : Collection.method ghobject_t).

Definition step (x : call) (st : t) : t :=
  match x with
  | call_create_collection cid => (_create_collection cid st).2
  | call_remove cid oid => (_remove cid oid st).2
  | call_collection_move_rename oldcid oldoid cid oid =>
      (_collection_move_rename oldcid oldoid cid oid st).2
  | call_method cid m =>
      match coll_map st !! cid with
      | None => st
      | Some c =>
          let '(c, h) := Collection.invoke m (c, heap st) in
          {| cct := cct st; coll_map := <[cid := c]> (coll_map st);
             heap := h |}
      end
  end.

Definition run (xs : list call) (st : t) : t :=
  foldl (λ st x, step x st) st xs.

Definition indices_agree (st : t) : Prop :=
  ∀ cid c, coll_map st !! cid = Some c → Collection.indices_agree c.

End store.

Arguments t coll_t {_ _} ghobject_t {_ _}.
Arguments call : clear implicits.

End MemStore.

(** ** The omap iterator *)

Module OmapIteratorImpl.

(** [o] keeps the object alive; [it] is the position in [o->omap].  The
    collection reference [c] only keeps the collection alive and is left
    out.  Each method builds a temporary [std::lock_guard] on
    [o->omap_mutex], which is gone before the map is read; it has no
    effect on the sequential behaviour embedded here. *)
Record t := { o : ObjectRef; it : nat }.

Definition omap_of (h : Heap) (self : t) : option (gmap string bufferlist) :=
  (λ obj, Object.omap (Object.base_of obj)) <$> deref h (o self).

Definition set_it (i : nat) (self : t) : t := {| o := o self; it := i |}.

(** [OmapIteratorImpl(c, o)]: [it(o->omap.begin())]. *)
Definition create (o : ObjectRef) : t := {| o := o; it := O |}.

Definition seek_to_first (h : Heap) (self : t) : option (N * t) :=
  match omap_of h self with
  | Some _ => Some (0, set_it O self)
  | None => None
  end.

Definition upper_bound (h : Heap) (after : string) (self : t)
  : option (N * t) :=
  match omap_of h self with
  | Some m => Some (0, set_it (map_upper_bound m after) self)
  | None => None
  end.

Definition lower_bound (h : Heap) (to : string) (self : t)
  : option (N * t) :=
  match omap_of h self with
  | Some m => Some (0, set_it (map_lower_bound m to) self)
  | None => None
  end.

(** [it != o->omap.end()] *)
Definition valid (h : Heap) (self : t) : option bool :=
  match omap_of h self with
  | Some m => Some (negb (Nat.eqb (it self) (map_end m)))
  | None => None
  end.

(** [++it]; incrementing [end()] is undefined. *)
Definition next (h : Heap) (self : t) : option (N * t) :=
  match omap_of h self with
  | Some m =>
      if decide (it self < map_end m)%nat
      then Some (0, set_it (S (it self)) self)
      else None
  | None => None
  end.

(** [n] calls of [next] in a row. *)
Fixpoint advance (n : nat) (h : Heap) (self : t) : option t :=
  match n with
  | O => Some self
  | S n' =>
      match next h self with
      | Some (_, self') => advance n' h self'
      | None => None
      end
  end.

(** [it->first] and [it->second]; dereferencing [end()] is undefined. *)
Definition key (h : Heap) (self : t) : option string :=
  match omap_of h self with
  | Some m => fst <$> inorder m !! it self
  | None => None
  end.

Definition value (h : Heap) (self : t) : option bufferlist :=
  match omap_of h self with
  | Some m => snd <$> inorder m !! it self
  | None => None
  end.

Definition status (self : t) : N := 0.

End OmapIteratorImpl.

(** * Part II: lemmas and theorems *)

(** ** Ordered walks *)

(** What [std::map] asks of its [Compare]: a strict total order. *)
Class ComparatorLaws (K : Type) `{Comparator K} := {
  less_irrefl (x : K) : ¬ less x x;
  less_trans (x y z : K) : less x y → less y z → less x z;
  less_trichotomy (x y : K) : less x y ∨ x = y ∨ less y x;
}.

Lemma string_ltb_compare (a b : string) :
  String.ltb a b ↔ String.compare a b = Lt.
Proof.
  unfold String.ltb. destruct (String.compare a b); simpl; split; by intros.
Qed.

Lemma string_ltb_le (a b : string) : String.ltb a b → String.le a b.
Proof.
  rewrite string_ltb_compare. unfold String.le, String.leb. by intros ->.
Qed.

Lemma string_not_ltb_le (a b : string) : ¬ String.ltb b a ↔ String.le a b.
Proof.
  rewrite string_ltb_compare. unfold String.le, String.leb.
  rewrite (String.compare_antisym a b).
  destruct (String.compare b a); simpl; split; done.
Qed.

#[export] Instance string_comparator_laws : ComparatorLaws string.
Proof.
  split; unfold less, less_string.
  - intros x Hx. apply string_ltb_compare in Hx.
    pose proof (String.compare_antisym x x) as E. by rewrite Hx in E.
  - intros x y z Hxy Hyz.
    destruct (decide (String.ltb x z)) as [|Hn]; [done|].
    apply string_not_ltb_le in Hn.
    assert (String.le x z) by (etrans; by apply string_ltb_le).
    assert (x = z) as -> by by apply (anti_symm String.le).
    apply string_ltb_le in Hyz. by apply string_not_ltb_le in Hyz.
  - intros x y. rewrite !string_ltb_compare.
    destruct (String.compare x y) eqn:E; [|by left|].
    + apply String.compare_eq_iff in E. auto.
    + right; right. rewrite String.compare_antisym. by rewrite E.
Qed.

Section inorder_facts.
Context `{Countable K} `{Comparator K} {V : Type}.
Implicit Types (m : gmap K V) (k : K) (v : V).

Lemma inorder_perm m : inorder m ≡ₚ map_to_list m.
Proof. apply merge_sort_Permutation. Qed.

Lemma length_inorder m : length (inorder m) = size m.
Proof. by rewrite inorder_perm, length_map_to_list. Qed.

Lemma elem_of_inorder m k v : (k, v) ∈ inorder m ↔ m !! k = Some v.
Proof. by rewrite inorder_perm, elem_of_map_to_list. Qed.

Lemma NoDup_fst_inorder m : NoDup (inorder m).*1.
Proof. rewrite inorder_perm. apply NoDup_fst_map_to_list. Qed.

Lemma inorder_empty : inorder (∅ : gmap K V) = [].
Proof.
  apply Permutation_nil_r. by rewrite inorder_perm, map_to_list_empty.
Qed.

Lemma inorder_lookup_Some m i k v :
  inorder m !! i = Some (k, v) → m !! k = Some v.
Proof. intros Hi. apply elem_of_inorder. by eapply list_elem_of_lookup_2. Qed.

Context `{!ComparatorLaws K}.

Lemma less_asym k1 k2 : less k1 k2 → ¬ less k2 k1.
Proof. intros H1 H2. by apply (less_irrefl k1), (less_trans k1 k2 k1). Qed.

(** The walk is ascending. *)
Lemma inorder_sorted m :
  StronglySorted (λ x y : K * V, ¬ less y.1 x.1) (inorder m).
Proof.
  apply StronglySorted_merge_sort.
  - intros x y z Hxy Hyz Hzx.
    destruct (less_trichotomy y.1 z.1) as [Hlt|[Heq|Hgt]].
    + apply Hxy. by apply (less_trans _ z.1).
    + apply Hxy. by rewrite Heq.
    + by apply Hyz.
  - intros x y. destruct (decide (less y.1 x.1)) as [Hlt|]; [|by left].
    right. by apply less_asym.
Qed.

Lemma inorder_lookup_mono m i j ki vi kj vj :
  (i ≤ j)%nat →
  inorder m !! i = Some (ki, vi) → inorder m !! j = Some (kj, vj) →
  ¬ less kj ki.
Proof.
  intros Hij Hi Hj. destruct (decide (i = j)) as [->|Hne].
  { rewrite Hi in Hj. injection Hj as -> ->. apply less_irrefl. }
  pose proof (inorder_sorted m) as Hs.
  rewrite <-(take_drop_middle _ _ _ Hj) in Hs, Hi.
  rewrite lookup_app_l in Hi
    by (rewrite length_take; apply lookup_lt_Some in Hj; lia).
  apply StronglySorted_app_1_elem_of with (x1 := (ki, vi)) (x2 := (kj, vj))
    in Hs; [done| |by left].
  by eapply list_elem_of_lookup_2.
Qed.

End inorder_facts.

(** [first_index] stops at the first key that satisfies [stop]. *)
Lemma first_index_le {K V} (stop : K → bool) (l : list (K * V)) :
  (first_index stop l ≤ length l)%nat.
Proof. induction l as [|e l IH]; simpl; [lia|]. destruct (stop e.1); simpl; lia. Qed.

Lemma first_index_before {K V} (stop : K → bool) (l : list (K * V)) i e :
  (i < first_index stop l)%nat → l !! i = Some e → stop e.1 = false.
Proof.
  revert i. induction l as [|e' l IH]; intros i Hi He; simpl in *; [lia|].
  destruct (stop e'.1) eqn:Hs; [lia|].
  destruct i as [|i]; simpl in He; [by injection He as <-|].
  apply (IH i); [lia|done].
Qed.

Lemma first_index_at {K V} (stop : K → bool) (l : list (K * V)) e :
  l !! first_index stop l = Some e → stop e.1 = true.
Proof.
  induction l as [|e' l IH]; simpl; [done|].
  destruct (stop e'.1) eqn:Hs; simpl; [by intros [= <-]|done].
Qed.

Lemma first_index_end {K V} (stop : K → bool) (l : list (K * V)) e :
  first_index stop l = length l → e ∈ l → stop e.1 = false.
Proof.
  intros Hend [i Hi]%list_elem_of_lookup_1.
  apply (first_index_before stop l i); [|done].
  rewrite Hend. by eapply lookup_lt_Some.
Qed.

(** Where [first_index] lands in an ascending walk: on the least key that
    satisfies [stop], or at the end when no key does. *)
Lemma first_index_inorder `{Countable K} `{Comparator K} `{!ComparatorLaws K}
    {V} (m : gmap K V) (stop : K → bool) :
  match inorder m !! first_index stop (inorder m) with
  | Some (k', v) =>
      first_index stop (inorder m) ≠ size m ∧ m !! k' = Some v ∧
      stop k' = true ∧
      ∀ k'', k'' ∈ dom m → stop k'' = true → ¬ less k'' k'
  | None =>
      first_index stop (inorder m) = size m ∧
      ∀ k'', k'' ∈ dom m → stop k'' = false
  end.
Proof.
  pose proof (first_index_le stop (inorder m)) as Hle.
  rewrite length_inorder in Hle.
  destruct (inorder m !! _) as [[k' v]|] eqn:Hi.
  - pose proof (lookup_lt_Some _ _ _ Hi) as Hlt. rewrite length_inorder in Hlt.
    split_and!; [lia|by eapply inorder_lookup_Some|by apply (first_index_at _ _ _ Hi)|].
    intros k'' [v'' Hk'']%elem_of_dom Hstop.
    apply elem_of_inorder, list_elem_of_lookup_1 in Hk'' as [j Hj].
    destruct (decide (j < first_index stop (inorder m))%nat) as [Hjlt|].
    { pose proof (first_index_before _ _ _ _ Hjlt Hj) as Hb. simpl in Hb.
      congruence. }
    eapply inorder_lookup_mono; [|exact Hi|exact Hj]. lia.
  - apply lookup_ge_None in Hi. rewrite length_inorder in Hi.
    split; [lia|]. intros k'' [v'' Hk'']%elem_of_dom.
    apply elem_of_inorder in Hk''.
    apply (first_index_end stop (inorder m) (k'', v'')); [|done].
    rewrite length_inorder. lia.
Qed.

(** ** The omap iterator *)

Section omap_iterator.
Import OmapIteratorImpl.
Implicit Types (h : Heap) (self : t) (m : gmap string bufferlist).

(** Every seek leaves the cursor within [begin() .. end()]. *)
Lemma lower_bound_position h self m to :
  omap_of h self = Some m →
  ∃ lo, lower_bound h to self = Some (0, lo) ∧ o lo = o self ∧
        (it lo ≤ map_end m)%nat.
Proof.
  intros Hm. unfold lower_bound. rewrite Hm. eexists; split_and!; [done..|].
  simpl. unfold map_end, map_lower_bound. rewrite <-length_inorder.
  apply first_index_le.
Qed.

Lemma upper_bound_position h self m after :
  omap_of h self = Some m →
  ∃ up, upper_bound h after self = Some (0, up) ∧ o up = o self ∧
        (it up ≤ map_end m)%nat.
Proof.
  intros Hm. unfold upper_bound. rewrite Hm. eexists; split_and!; [done..|].
  simpl. unfold map_end, map_upper_bound. rewrite <-length_inorder.
  apply first_index_le.
Qed.

Lemma next_position h self m self' r :
  omap_of h self = Some m → next h self = Some (r, self') →
  (it self' ≤ map_end m)%nat.
Proof.
  intros Hm. unfold next. rewrite Hm. case_decide; [|done].
  intros [= _ <-]. simpl. lia.
Qed.

(** The scenario of the specification: keys "a" and "c", seek to "b". *)
Definition scenario_object : Object.t :=
  Object.omap_setkeys
    (<["a" := [x31]]> (<["c" := [x33]]> ∅)) Object.new_BufferlistObject.

Lemma lower_bound_scenario :
  let '(r, h) := new scenario_object ∅ in
  ∃ lo, lower_bound h "b" (create r) = Some (0, lo) ∧
        key h lo = Some "c" ∧ value h lo = Some [x33].
Proof.
  assert (new scenario_object ∅
          = (Some 1%positive, <[1%positive := scenario_object]> ∅)) as ->
    by (vm_compute; reflexivity).
  exists (set_it 1 (create (Some 1%positive))).
  split_and!; vm_compute; reflexivity.
Qed.

(** C6: [lower_bound(k)] puts the cursor on the first omap key that is
    greater than or equal to [k], [upper_bound(k)] on the first key
    strictly greater than [k]; the cursor is invalid exactly when the omap
    has no such key.  In the scenario of the specification (keys "a" and
    "c"), seeking the lower bound of "b" leaves the cursor on "c". *)
Theorem omap_iterator_bounds h self m (k : string) :
  omap_of h self = Some m →
  (∃ lo, lower_bound h k self = Some (0, lo) ∧
     match key h lo with
     | Some k' =>
         valid h lo = Some true ∧ k' ∈ dom m ∧ String.le k k' ∧
         ∀ k'', k'' ∈ dom m → String.le k k'' → String.le k' k''
     | None =>
         valid h lo = Some false ∧ ∀ k'', k'' ∈ dom m → String.ltb k'' k
     end) ∧
  (∃ up, upper_bound h k self = Some (0, up) ∧
     match key h up with
     | Some k' =>
         valid h up = Some true ∧ k' ∈ dom m ∧ String.ltb k k' ∧
         ∀ k'', k'' ∈ dom m → String.ltb k k'' → String.le k' k''
     | None =>
         valid h up = Some false ∧ ∀ k'', k'' ∈ dom m → String.le k'' k
     end) ∧
  (let '(r, h) := new scenario_object ∅ in
   ∃ lo, lower_bound h "b" (create r) = Some (0, lo) ∧ key h lo = Some "c").
Proof.
  intros Hm. split_and!.
  - eexists. unfold lower_bound. rewrite Hm. split; [done|].
    unfold key, valid, omap_of in *. simpl. rewrite Hm. simpl.
    unfold map_lower_bound, map_end.
    pose proof (first_index_inorder m (λ k', negb (less k' k))) as Hf.
    destruct (inorder m !! _) as [[k' v]|]; simpl.
    + destruct Hf as (Hne & Hk' & Hstop & Hmin). split_and!.
      * f_equal. by apply negb_true_iff, Nat.eqb_neq.
      * by apply elem_of_dom.
      * apply string_not_ltb_le. by apply negb_true_iff, Is_true_false in Hstop.
      * intros k'' Hin Hle. apply string_not_ltb_le, Hmin; [done|].
        apply negb_true_iff, Is_true_false. by apply string_not_ltb_le.
    + destruct Hf as [-> Hall]. split; [by rewrite Nat.eqb_refl|].
      intros k'' Hin. apply Hall, negb_false_iff in Hin. by apply Is_true_true.
  - eexists. unfold upper_bound. rewrite Hm. split; [done|].
    unfold key, valid, omap_of in *. simpl. rewrite Hm. simpl.
    unfold map_upper_bound, map_end.
    pose proof (first_index_inorder m (λ k', less k k')) as Hf.
    destruct (inorder m !! _) as [[k' v]|]; simpl.
    + destruct Hf as (Hne & Hk' & Hstop & Hmin). split_and!.
      * f_equal. by apply negb_true_iff, Nat.eqb_neq.
      * by apply elem_of_dom.
      * by apply Is_true_true.
      * intros k'' Hin Hlt. apply string_not_ltb_le, Hmin; [done|].
        by apply Is_true_true.
    + destruct Hf as [-> Hall]. split; [by rewrite Nat.eqb_refl|].
      intros k'' Hin. apply string_not_ltb_le, Is_true_false. by apply Hall.
  - pose proof lower_bound_scenario as Hs.
    destruct (new scenario_object ∅) as [r h']. destruct Hs as (lo & ? & ? & _).
    by exists lo.
Qed.

Lemma omap_iterator_bounds_witness :
  let h := (new scenario_object ∅).2 in
  let self := create (new scenario_object ∅).1 in
  ∃ lo, lower_bound h "b" self = Some (0, lo) ∧
        match key h lo with
        | Some k' => valid h lo = Some true ∧ String.le "b" k'
        | None => valid h lo = Some false
        end.
Proof.
  destruct (omap_iterator_bounds (new scenario_object ∅).2
              (create (new scenario_object ∅).1)
              (<["a" := [x31]]> (<["c" := [x33]]> ∅)) "b")
    as [(lo & Hlo & Hk) _]; [vm_compute; reflexivity|].
  exists lo. split; [exact Hlo|].
  destruct (key _ lo); [destruct Hk as (? & _ & ? & _)|destruct Hk]; auto.
Defined.

(** C10: [key()] and [value()] dereference the cursor, so they are defined
    exactly when [valid()] holds: for a cursor within [begin() .. end()],
    each returns [None] (the undefined dereference of [end()]) if and only
    if [valid()] is false, and when [valid()] is true both return the
    entry of the omap under the cursor. *)
Theorem omap_iterator_key_value_need_valid h self m :
  omap_of h self = Some m → (it self ≤ map_end m)%nat →
  (key h self = None ↔ valid h self = Some false) ∧
  (value h self = None ↔ valid h self = Some false) ∧
  (valid h self = Some true →
   ∃ k v, key h self = Some k ∧ value h self = Some v ∧ m !! k = Some v).
Proof.
  intros Hm Hle. unfold key, value, valid. rewrite Hm. unfold map_end in *.
  rewrite <-length_inorder in *.
  destruct (inorder m !! it self) as [[k v]|] eqn:Hi; simpl.
  - pose proof (lookup_lt_Some _ _ _ Hi) as Hlt.
    assert (Nat.eqb (it self) (length (inorder m)) = false) as ->
      by (apply Nat.eqb_neq; lia).
    simpl. split_and!; [done..|]. intros _. exists k, v.
    split_and!; [done..|]. by eapply inorder_lookup_Some.
  - apply lookup_ge_None in Hi.
    assert (Nat.eqb (it self) (length (inorder m)) = true) as ->
      by (apply Nat.eqb_eq; lia).
    simpl. split_and!; done.
Qed.

Lemma omap_iterator_key_value_need_valid_witness :
  let h := (new scenario_object ∅).2 in
  let self := create (new scenario_object ∅).1 in
  valid h self = Some true ∧ key h self = Some "a" ∧
  (key h self = None ↔ valid h self = Some false).
Proof.
  split_and!; [vm_compute; reflexivity..|].
  apply (omap_iterator_key_value_need_valid (new scenario_object ∅).2
           (create (new scenario_object ∅).1)
           (<["a" := [x31]]> (<["c" := [x33]]> ∅)));
    [vm_compute; reflexivity|vm_compute; lia].
Defined.

End omap_iterator.

(** ** Walking the omap *)

Section inorder_strict.
Context `{Countable K} `{Comparator K} `{!ComparatorLaws K} {V : Type}.
Implicit Types (m : gmap K V) (k : K) (v : V).

(** Later in the walk means a greater key. *)
Lemma inorder_lookup_lt m i j ki vi kj vj :
  (i < j)%nat →
  inorder m !! i = Some (ki, vi) → inorder m !! j = Some (kj, vj) →
  less ki kj.
Proof.
  intros Hij Hi Hj.
  pose proof (inorder_lookup_mono m i j ki vi kj vj) as Hmono.
  destruct (less_trichotomy ki kj) as [Hlt|[Heq|Hgt]]; [done| |].
  - subst kj. exfalso.
    pose proof (NoDup_fst_inorder m) as Hnd.
    assert ((inorder m).*1 !! i = Some ki) as Hi'
      by by rewrite list_lookup_fmap, Hi.
    assert ((inorder m).*1 !! j = Some ki) as Hj'
      by by rewrite list_lookup_fmap, Hj.
    pose proof (NoDup_lookup _ _ _ _ Hnd Hi' Hj'). lia.
  - exfalso. apply Hmono; [lia|done..].
Qed.

Lemma first_index_unique (stop : K → bool) (l : list (K * V)) (i : nat) :
  (i ≤ length l)%nat →
  (∀ j e, (j < i)%nat → l !! j = Some e → stop e.1 = false) →
  (∀ e, l !! i = Some e → stop e.1 = true) →
  first_index stop l = i.
Proof.
  revert i. induction l as [|e l IH]; intros i Hi Hbefore Hat; simpl in *.
  - lia.
  - destruct i as [|i].
    + by rewrite (Hat e eq_refl).
    + rewrite (Hbefore 0%nat e) by (done || lia). f_equal.
      apply IH; [lia| |done].
      intros j e' Hj He'. apply (Hbefore (S j)); [lia|done].
Qed.

Lemma first_index_ext (stop1 stop2 : K → bool) (l : list (K * V)) :
  (∀ e, e ∈ l → stop1 e.1 = stop2 e.1) →
  first_index stop1 l = first_index stop2 l.
Proof.
  induction l as [|e l IH]; intros Hl; simpl; [done|].
  rewrite <-(Hl e) by by left. destruct (stop1 e.1); [done|].
  f_equal. apply IH. intros e' He'. apply Hl. by right.
Qed.

(** [lower_bound] of a key of the map is its position, [upper_bound] the
    next one. *)
Lemma map_lower_bound_at m i k v :
  inorder m !! i = Some (k, v) → map_lower_bound m k = i.
Proof.
  intros Hi. apply first_index_unique.
  - apply lookup_lt_Some in Hi. lia.
  - intros j [kj vj] Hj Hlj. simpl. apply negb_false_iff, Is_true_true.
    by eapply inorder_lookup_lt.
  - intros e He. rewrite Hi in He. injection He as <-. simpl.
    apply negb_true_iff, Is_true_false, less_irrefl.
Qed.

Lemma map_upper_bound_at m i k v :
  inorder m !! i = Some (k, v) → map_upper_bound m k = S i.
Proof.
  intros Hi. apply first_index_unique.
  - apply lookup_lt_Some in Hi. lia.
  - intros j [kj vj] Hj Hlj. simpl. apply Is_true_false.
    eapply (inorder_lookup_mono m j i); [lia|done..].
  - intros [kj vj] Hj. simpl. apply Is_true_true.
    eapply (inorder_lookup_lt m i (S i)); [lia|done..].
Qed.

(** For a key that the map does not hold the two bounds coincide. *)
Lemma map_bounds_absent m k :
  m !! k = None → map_lower_bound m k = map_upper_bound m k.
Proof.
  intros Hk. apply first_index_ext. intros [k' v'] Hin%elem_of_inorder. simpl.
  destruct (less_trichotomy k' k) as [Hlt|[->|Hgt]].
  - rewrite (Is_true_true_1 _ Hlt). simpl. symmetry.
    by apply Is_true_false, less_asym.
  - congruence.
  - rewrite (Is_true_true_1 _ Hgt). apply negb_true_iff, Is_true_false.
    by apply less_asym.
Qed.

End inorder_strict.

Section omap_walk.
Import OmapIteratorImpl.
Implicit Types (h : Heap) (self : t) (m : gmap string bufferlist).

Lemma omap_of_set_it h self (i : nat) :
  omap_of h (set_it i self) = omap_of h self.
Proof. done. Qed.

Lemma advance_set_it h self m (i n : nat) :
  omap_of h self = Some m → (i + n ≤ size m)%nat →
  advance n h (set_it i self) = Some (set_it (i + n) self).
Proof.
  intros Hm. revert i. induction n as [|n IH]; intros i Hle; simpl.
  - by rewrite Nat.add_0_r.
  - unfold next. rewrite omap_of_set_it, Hm. unfold map_end. simpl.
    rewrite decide_True by lia.
    change (set_it (S i) (set_it i self)) with (set_it (S i) self).
    rewrite IH by lia. do 2 f_equal. lia.
Qed.

Lemma advance_past_end h self m (i n : nat) :
  omap_of h self = Some m → (i ≤ size m)%nat → (size m < i + n)%nat →
  advance n h (set_it i self) = None.
Proof.
  intros Hm. revert i. induction n as [|n IH]; intros i Hle Hlt; simpl.
  - lia.
  - unfold next. rewrite omap_of_set_it, Hm. unfold map_end. simpl.
    case_decide; [|done].
    change (set_it (S i) (set_it i self)) with (set_it (S i) self).
    apply IH; lia.
Qed.

(** X11: a walk over the omap.  From [seek_to_first], [n] calls of [next]
    succeed for every [n] up to the number of omap entries, and one more is
    undefined.  The cursor is valid after fewer than that many steps and
    invalid at the end; where it is valid, [key()] and [value()] give an
    entry of the omap.  The keys come in strictly ascending order, and every
    entry of the omap is met: the walk visits each entry exactly once. *)
Theorem omap_iterator_walk h self m :
  omap_of h self = Some m →
  ∃ first,
    seek_to_first h self = Some (0, first) ∧
    (∀ n, (n ≤ size m)%nat →
       ∃ cur, advance n h first = Some cur ∧
              valid h cur = Some (bool_decide (n < size m)%nat) ∧
              ((n < size m)%nat →
               ∃ k v, key h cur = Some k ∧ value h cur = Some v ∧
                      m !! k = Some v)) ∧
    advance (S (size m)) h first = None ∧
    (∀ k v, m !! k = Some v →
       ∃ n cur, (n < size m)%nat ∧ advance n h first = Some cur ∧
                key h cur = Some k ∧ value h cur = Some v) ∧
    (∀ i j ci cj ki kj, (i < j)%nat →
       advance i h first = Some ci → advance j h first = Some cj →
       key h ci = Some ki → key h cj = Some kj → String.ltb ki kj).
Proof.
  intros Hm. exists (set_it 0 self). unfold seek_to_first. rewrite Hm.
  assert (∀ n, (n ≤ size m)%nat →
            advance n h (set_it 0 self) = Some (set_it n self)) as Hadv
    by (intros n Hn; by rewrite (advance_set_it h self m 0 n)).
  assert (∀ n, key h (set_it n self) = fst <$> inorder m !! n) as Hkey
    by (intros n; unfold key; by rewrite omap_of_set_it, Hm).
  assert (∀ n, value h (set_it n self) = snd <$> inorder m !! n) as Hval
    by (intros n; unfold value; by rewrite omap_of_set_it, Hm).
  split_and!; [done| | | |].
  - intros n Hn. exists (set_it n self). split_and!; [by apply Hadv| |].
    + unfold valid. rewrite omap_of_set_it, Hm. simpl. f_equal.
      unfold map_end. case_bool_decide.
      * apply negb_true_iff, Nat.eqb_neq. lia.
      * apply negb_false_iff, Nat.eqb_eq. lia.
    + intros Hlt. rewrite <-length_inorder in Hlt.
      destruct (lookup_lt_is_Some_2 _ _ Hlt) as [[k v] Hkv].
      exists k, v. rewrite Hkey, Hval, Hkv.
      split_and!; [done..|]. by eapply inorder_lookup_Some.
  - apply (advance_past_end h self m 0); [done|lia..].
  - intros k v Hkv.
    apply elem_of_inorder, list_elem_of_lookup_1 in Hkv as [n Hn].
    pose proof (lookup_lt_Some _ _ _ Hn) as Hlt. rewrite length_inorder in Hlt.
    exists n, (set_it n self).
    split_and!; [done|apply Hadv; lia|by rewrite Hkey, Hn|by rewrite Hval, Hn].
  - intros i j ci cj ki kj Hij Hi Hj Hki Hkj.
    assert (j ≤ size m)%nat as Hjm.
    { destruct (decide (j ≤ size m)%nat) as [|Hn]; [done|].
      rewrite (advance_past_end h self m 0 j) in Hj by (done || lia). done. }
    rewrite Hadv in Hi, Hj by lia. injection Hi as <-. injection Hj as <-.
    rewrite Hkey in Hki, Hkj.
    destruct (inorder m !! i) as [[ki' vi]|] eqn:Hli; [|done].
    destruct (inorder m !! j) as [[kj' vj]|] eqn:Hlj; [|done].
    simpl in *. injection Hki as ->. injection Hkj as ->.
    by apply (inorder_lookup_lt m i j ki vi kj vj).
Qed.

(** X12: seeking to a key.  When the omap holds [k], [lower_bound(k)] puts
    the cursor on [k] itself, [key()] and [value()] return the entry, and
    [upper_bound(k)] is where [next()] leads from there.  When the omap does
    not hold [k], [lower_bound(k)] and [upper_bound(k)] put the cursor in
    the same place. *)
Theorem omap_iterator_seek_key h self m (k : string) :
  omap_of h self = Some m →
  match m !! k with
  | Some v =>
      ∃ lo up, lower_bound h k self = Some (0, lo) ∧
               key h lo = Some k ∧ value h lo = Some v ∧
               valid h lo = Some true ∧
               upper_bound h k self = Some (0, up) ∧
               next h lo = Some (0, up)
  | None => lower_bound h k self = upper_bound h k self
  end.
Proof.
  intros Hm. unfold lower_bound, upper_bound. rewrite Hm.
  destruct (m !! k) as [v|] eqn:Hk.
  - apply elem_of_inorder, list_elem_of_lookup_1 in Hk as [i Hi].
    pose proof (lookup_lt_Some _ _ _ Hi) as Hlt. rewrite length_inorder in Hlt.
    rewrite (map_lower_bound_at m i k v Hi), (map_upper_bound_at m i k v Hi).
    eexists _, _. split_and!; [done| | | |done|].
    + unfold key. by rewrite omap_of_set_it, Hm; simpl; rewrite Hi.
    + unfold value. by rewrite omap_of_set_it, Hm; simpl; rewrite Hi.
    + unfold valid. rewrite omap_of_set_it, Hm. simpl. f_equal.
      apply negb_true_iff, Nat.eqb_neq. unfold map_end. lia.
    + unfold next. rewrite omap_of_set_it, Hm. simpl. unfold map_end.
      by rewrite decide_True by lia.
  - by rewrite (map_bounds_absent m k Hk).
Qed.

End omap_walk.

(** ** [dump] *)

Lemma inorder_keys_ascending `{Countable K} `{Comparator K}
    `{!ComparatorLaws K} {V} (m : gmap K V) :
  keys_ascending m (inorder m).*1.
Proof.
  split.
  - intros k. rewrite list_elem_of_fmap, elem_of_dom. split.
    + intros ([k' v] & -> & Hin%elem_of_inorder). by exists v.
    + intros [v Hv]. exists (k, v). split; [done|]. by apply elem_of_inorder.
  - intros i j a b Hij Hi Hj. rewrite list_lookup_fmap in Hi, Hj.
    destruct (inorder m !! i) as [[ki vi]|] eqn:Hli; [|done].
    destruct (inorder m !! j) as [[kj vj]|] eqn:Hlj; [|done].
    simpl in *. injection Hi as <-. injection Hj as <-.
    by apply (inorder_lookup_lt m i j ki vi kj vj).
Qed.

(** Two maps with the same keys are walked in the same key order. *)
Lemma inorder_keys_same_dom `{Countable K} `{Comparator K}
    `{!ComparatorLaws K} {V W} (m1 : gmap K V) (m2 : gmap K W) :
  dom m1 = dom m2 → (inorder m1).*1 = (inorder m2).*1.
Proof.
  intros Hdom.
  assert (AntiSymm (=) (λ a b : K, ¬ less b a)) as Hanti.
  { intros a b Hab Hba. by destruct (less_trichotomy a b) as [?|[?|?]]. }
  apply (StronglySorted_unique (λ a b : K, ¬ less b a)).
  - eapply StronglySorted_fmap; [|apply inorder_sorted]. by intros x y.
  - eapply StronglySorted_fmap; [|apply inorder_sorted]. by intros x y.
  - apply NoDup_Permutation; [apply NoDup_fst_inorder..|].
    intros k. destruct (inorder_keys_ascending m1) as [-> _].
    destruct (inorder_keys_ascending m2) as [-> _]. by rewrite Hdom.
Qed.








(** ** The wire format *)

Lemma byte_of_N_to_N (n : N) : Byte.to_N (byte_of_N n) = n mod 256.
Proof.
  unfold byte_of_N.
  destruct (Byte.of_N (n mod 256)) as [b|] eqn:Hb; simpl.
  - by apply Byte.to_of_N.
  - apply Byte.of_N_None_iff in Hb.
    pose proof (N.mod_upper_bound n 256). lia.
Qed.

Lemma length_le_bytes (w : nat) (n : N) : length (le_bytes w n) = w.
Proof. revert n. induction w as [|w IH]; intros n; simpl; [done|by rewrite IH]. Qed.

Lemma le_value_le_bytes (w : nat) (n : N) :
  le_value (le_bytes w n) = n mod 256 ^ N.of_nat w.
Proof.
  revert n. induction w as [|w IH]; intros n.
  - simpl. by rewrite N.mod_1_r.
  - cbn [le_bytes le_value]. rewrite byte_of_N_to_N, IH.
    rewrite Nat2N.inj_succ, N.pow_succ_r'.
    rewrite (N.Div0.mod_mul_r n 256 (256 ^ N.of_nat w)). lia.
Qed.

Lemma copy_out_app (b rest : bufferlist) :
  copy_out (length b) (b ++ rest) = Ok (b, rest).
Proof.
  unfold copy_out. rewrite decide_True by (rewrite length_app; lia).
  by rewrite take_app_length, drop_app_length.
Qed.

Lemma copy_out_short (n : nat) (p : bufferlist) :
  (length p < n)%nat → copy_out n p = Throw end_of_buffer.
Proof. intros Hn. unfold copy_out. by rewrite decide_False by lia. Qed.

Lemma decode_uint_le_bytes (w : nat) (n : N) (rest : bufferlist) :
  n < 256 ^ N.of_nat w →
  decode_uint w (le_bytes w n ++ rest) = Ok (n, rest).
Proof.
  intros Hn. unfold decode_uint.
  rewrite <-(length_le_bytes w n) at 1. rewrite copy_out_app. simpl.
  by rewrite le_value_le_bytes, N.mod_small.
Qed.

Lemma decode_uint_encode (w : nat) (n : N) (rest : bufferlist) :
  n < 256 ^ N.of_nat w →
  decode_uint w (encode_uint w n [] ++ rest) = Ok (n, rest).
Proof. apply decode_uint_le_bytes. Qed.

Lemma decode_bool_encode (b : bool) (rest : bufferlist) :
  decode_bool (encode_bool b [] ++ rest) = Ok (b, rest).
Proof.
  unfold decode_bool, encode_bool, decode_u8, encode_u8.
  rewrite decode_uint_encode by (by destruct b). by destruct b.
Qed.

Lemma encode_bytes_app (b : list byte) (bl : bufferlist) :
  encode_bytes b bl = bl ++ encode_bytes b [].
Proof. unfold encode_bytes, encode_u32, encode_uint. by rewrite <-app_assoc. Qed.

Lemma decode_bytes_encode (b : list byte) (rest : bufferlist) :
  N.of_nat (length b) < u32_max →
  decode_bytes (encode_bytes b [] ++ rest) = Ok (b, rest).
Proof.
  intros Hb. unfold decode_bytes, encode_bytes, decode_u32, encode_u32.
  rewrite <-app_assoc, decode_uint_encode by (by apply N.mod_lt).
  unfold bindD. rewrite N.mod_small, Nat2N.id by done. apply copy_out_app.
Qed.

Lemma decode_string_encode (s : string) (rest : bufferlist) :
  N.of_nat (length (list_byte_of_string s)) < u32_max →
  decode_string (encode_string s [] ++ rest) = Ok (s, rest).
Proof.
  intros Hs. unfold decode_string, encode_string.
  rewrite decode_bytes_encode by done. unfold bindD.
  by rewrite string_of_list_byte_of_string.
Qed.

#[export] Instance Wire_u64 : Wire N :=
  {| fits := fits_u64;
     encode_app n bl := eq_refl;
     decode_encode n rest := decode_uint_encode 8 n rest |}.

#[export] Instance Wire_bytes : Wire (list byte) :=
  {| fits := fits_bytes;
     encode_app := encode_bytes_app;
     decode_encode := decode_bytes_encode |}.

#[export] Instance Wire_string : Wire string :=
  {| fits := fits_string;
     encode_app s := encode_bytes_app (list_byte_of_string s);
     decode_encode := decode_string_encode |}.

(** A loop of appending encoders appends. *)
Lemma foldl_encode_app {A} (f : bufferlist → A → bufferlist) (l : list A)
    (bl : bufferlist) :
  (∀ bl x, f bl x = bl ++ f [] x) → foldl f bl l = bl ++ foldl f [] l.
Proof.
  intros Hf. revert bl. induction l as [|x l IH]; intros bl; simpl.
  - by rewrite app_nil_r.
  - by rewrite IH, (IH (f [] x)), (Hf bl x), app_assoc.
Qed.

(** Inserting the entries of a duplicate-free list one after the other
    builds the map of the list. *)
Lemma foldl_insert_list_to_map `{Countable K} {V} (l : list (K * V))
    (m0 : gmap K V) :
  NoDup l.*1 →
  foldl (λ m e, <[e.1 := e.2]> m) m0 l = list_to_map l ∪ m0.
Proof.
  revert m0. induction l as [|[k v] l IH]; intros m0 Hnd.
  - simpl. by rewrite (left_id_L ∅ (∪)).
  - rewrite fmap_cons in Hnd. apply NoDup_cons in Hnd as [Hk Hnd].
    cbn [foldl fst snd]. rewrite IH by done.
    rewrite list_to_map_cons, <-insert_union_l. symmetry.
    apply insert_union_r. by apply not_elem_of_list_to_map_1.
Qed.

Lemma foldl_insert_inorder `{Countable K} `{Comparator K} {V}
    (m : gmap K V) :
  foldl (λ m e, <[e.1 := e.2]> m) ∅ (inorder m) = m.
Proof.
  rewrite foldl_insert_list_to_map by apply NoDup_fst_inorder.
  rewrite (right_id_L ∅ (∪)).
  rewrite (list_to_map_proper _ (map_to_list m));
    [apply list_to_map_to_list|apply NoDup_fst_inorder|apply inorder_perm].
Qed.

Section map_wire.
Context `{Countable K} `{Comparator K} `{Encodable K} `{Encodable V}.
Context `{!Wire K} `{!Wire V}.

Lemma encode_entry_app (bl : bufferlist) (e : K * V) :
  encode_entry bl e = bl ++ encode_entry [] e.
Proof.
  unfold encode_entry. rewrite (encode_app e.2), (encode_app e.1).
  rewrite (encode_app e.2 (encode e.1 [])). by rewrite app_assoc.
Qed.

Lemma encode_map_app (m : gmap K V) (bl : bufferlist) :
  encode_map m bl = bl ++ encode_map m [].
Proof.
  unfold encode_map. fold encode_entry.
  rewrite foldl_encode_app by apply encode_entry_app.
  rewrite (foldl_encode_app _ _ (encode_u32 _ [])) by apply encode_entry_app.
  unfold encode_u32, encode_uint. by rewrite <-app_assoc.
Qed.

Lemma decode_map_entries_encode (l : list (K * V)) (m0 : gmap K V)
    (rest : bufferlist) :
  (∀ e, e ∈ l → fits e.1 ∧ fits e.2) →
  decode_map_entries (length l) m0 (foldl encode_entry [] l ++ rest)
  = Ok (foldl (λ m e, <[e.1 := e.2]> m) m0 l, rest).
Proof.
  revert m0. induction l as [|[k v] l IH]; intros m0 Hfits; [done|].
  cbn [length decode_map_entries foldl].
  rewrite foldl_encode_app by apply encode_entry_app.
  unfold encode_entry at 1. cbn [fst snd].
  rewrite (encode_app v), <-!app_assoc.
  destruct (Hfits (k, v)) as [Hk Hv]; [by left|].
  rewrite (decode_encode k) by done. unfold bindD at 1.
  rewrite (decode_encode v) by done. unfold bindD at 1.
  apply IH. intros e He. apply Hfits. by right.
Qed.

Lemma decode_map_encode (m : gmap K V) (rest : bufferlist) :
  fits_map fits fits m → decode_map (encode_map m [] ++ rest) = Ok (m, rest).
Proof.
  intros [Hsize Hall]. unfold decode_map, encode_map. fold encode_entry.
  rewrite foldl_encode_app by apply encode_entry_app.
  unfold decode_u32, encode_u32. rewrite <-app_assoc.
  rewrite decode_uint_encode by (by apply N.mod_lt). unfold bindD.
  rewrite N.mod_small, Nat2N.id, <-length_inorder by done.
  rewrite decode_map_entries_encode.
  - by rewrite foldl_insert_inorder.
  - intros [k v] He%elem_of_inorder. by apply (Hall k v).
Qed.

#[export] Instance Wire_map : Wire (gmap K V) :=
  {| fits := fits_map fits fits;
     encode_app := encode_map_app;
     decode_encode := decode_map_encode |}.

End map_wire.

(** *** The envelope *)

Lemma ENCODE_envelope (v compat : N) (bl body : bufferlist) :
  ENCODE_FINISH (ENCODE_START v compat bl).2
                ((ENCODE_START v compat bl).1 ++ body)
  = bl ++ envelope v compat body.
Proof.
  unfold ENCODE_START, ENCODE_FINISH, copy_in, envelope, encode_u8, encode_u32,
    encode_uint. cbn [fst snd].
  rewrite !length_app, !length_le_bytes.
  replace (length bl + 1 + 1 + 4 - 4)%nat with (length bl + 2)%nat by lia.
  replace (length bl + 1 + 1 + 4 + length body - (length bl + 2) - 4)%nat
    with (length body) by lia.
  rewrite <-(app_assoc _ (le_bytes 4 0) body).
  rewrite take_app_length'
    by (rewrite !length_app, !length_le_bytes; lia).
  rewrite (app_assoc _ (le_bytes 4 0) body).
  rewrite drop_app_length'
    by (rewrite !length_app, !length_le_bytes; lia).
  by rewrite <-!app_assoc.
Qed.

Lemma DECODE_START_envelope (v compat : N) (body rest : bufferlist) :
  v < 256 → compat ≤ 1 → fits_bytes body →
  DECODE_START 1 (envelope v compat body ++ rest)
  = Ok ((v, length rest), body ++ rest).
Proof.
  intros Hv Hc Hb. unfold DECODE_START, envelope, decode_u8, decode_u32.
  rewrite <-!app_assoc.
  rewrite (decode_uint_le_bytes 1 v) by done. unfold bindD at 1.
  rewrite (decode_uint_le_bytes 1 compat) by (simpl; lia). unfold bindD at 1.
  rewrite (proj2 (N.ltb_ge 1 compat)) by done.
  rewrite (decode_uint_le_bytes 4) by (by apply N.mod_lt). unfold bindD.
  rewrite N.mod_small by done. rewrite length_app, Nat2N.inj_add.
  rewrite (proj2 (N.ltb_ge _ _)) by lia.
  rewrite Nat2N.id. do 3 f_equal. lia.
Qed.

Lemma DECODE_FINISH_exact (rest : bufferlist) :
  DECODE_FINISH (length rest) rest = Ok (tt, rest).
Proof.
  unfold DECODE_FINISH. rewrite decide_False by lia.
  by rewrite Nat.sub_diag.
Qed.

(** *** Page sets and objects *)

Lemma PageSet_encode_app (ps : PageSet.t) (bl : bufferlist) :
  PageSet.encode ps bl = bl ++ PageSet.encode ps [].
Proof.
  unfold PageSet.encode. rewrite encode_map_app.
  rewrite (encode_map_app _ (encode_u64 _ [])).
  unfold encode_u64, encode_uint. by rewrite <-app_assoc.
Qed.

Lemma PageSet_decode_encode (ps : PageSet.t) (rest : bufferlist) :
  PageSet.fits ps → PageSet.decode (PageSet.encode ps [] ++ rest) = Ok (ps, rest).
Proof.
  intros [Hsz Hpg]. unfold PageSet.decode, PageSet.encode.
  rewrite encode_map_app, <-app_assoc.
  unfold decode_u64, encode_u64. rewrite decode_uint_encode by done.
  unfold bindD at 1. rewrite decode_map_encode by done. unfold bindD.
  by destruct ps.
Qed.

Lemma encode_base_app (b : Object.base) (bl : bufferlist) :
  Object.encode_base b bl = bl ++ Object.common_fields b.
Proof.
  unfold Object.encode_base, Object.common_fields.
  rewrite (encode_app (Object.omap b)), (encode_app (Object.omap_header b)),
    (encode_app (Object.xattr b)).
  by rewrite <-!app_assoc.
Qed.

Lemma decode_base_encode (b : Object.base) (rest : bufferlist) :
  Object.fits_base b →
  Object.decode_base (Object.common_fields b ++ rest) = Ok (b, rest).
Proof.
  intros (Hx & Hh & Hm). unfold Object.decode_base, Object.common_fields.
  rewrite <-!app_assoc.
  rewrite (decode_encode (Object.xattr b)) by done. unfold bindD at 1.
  rewrite (decode_encode (Object.omap_header b)) by done. unfold bindD at 1.
  rewrite (decode_encode (Object.omap b)) by done. unfold bindD.
  by destruct b.
Qed.

Lemma Object_encode_envelope (o : Object.t) (bl : bufferlist) :
  Object.encode o bl = bl ++ envelope 1 1 (Object.fields o).
Proof.
  destruct o as [b data|b data data_len]; unfold Object.encode, Object.fields.
  - destruct (ENCODE_START 1 1 bl) as [bl1 pos] eqn:Hs.
    rewrite encode_base_app, (encode_app data), <-app_assoc.
    replace bl1 with (ENCODE_START 1 1 bl).1 by by rewrite Hs.
    replace pos with (ENCODE_START 1 1 bl).2 by by rewrite Hs.
    apply ENCODE_envelope.
  - destruct (ENCODE_START 1 1 bl) as [bl1 pos] eqn:Hs.
    rewrite encode_base_app, PageSet_encode_app. unfold encode_u64 at 1.
    unfold encode_uint at 1. rewrite <-!app_assoc.
    replace bl1 with (ENCODE_START 1 1 bl).1 by by rewrite Hs.
    replace pos with (ENCODE_START 1 1 bl).2 by by rewrite Hs.
    by rewrite ENCODE_envelope.
Qed.

Lemma Object_decode_encode (receiver o : Object.t) (rest : bufferlist) :
  Object.fits o → Object.is_paged receiver = Object.is_paged o →
  Object.decode receiver (envelope 1 1 (Object.fields o) ++ rest) = Ok (o, rest).
Proof.
  intros [Hf Hlen] Hv.
  destruct o as [b data|b data data_len], receiver as [b0 d0|b0 d0 l0];
    try done; unfold Object.decode;
    rewrite DECODE_START_envelope by (done || lia); unfold bindD at 1;
    unfold Object.fields; rewrite <-!app_assoc.
  - destruct Hf as [Hd Hb].
    rewrite (decode_encode data) by done. unfold bindD at 1.
    rewrite decode_base_encode by done. unfold bindD at 1. cbn [snd].
    by rewrite DECODE_FINISH_exact.
  - destruct Hf as (Hl & Hd & Hb).
    unfold decode_u64, encode_u64. rewrite decode_uint_encode by done.
    unfold bindD at 1. rewrite PageSet_decode_encode by done.
    unfold bindD at 1. rewrite decode_base_encode by done.
    unfold bindD at 1. cbn [snd]. by rewrite DECODE_FINISH_exact.
Qed.

(** ** Collections: lookup and creation *)

Section collection_facts.
Context `{Countable ghobject_t}.
Implicit Types (c : Collection.t ghobject_t) (h : Heap) (oid : ghobject_t).

Lemma dom_emplace {V} (k : ghobject_t) (v : V) (m : gmap ghobject_t V) :
  dom (Collection.emplace k v m).1 = {[k]} ∪ dom m.
Proof.
  unfold Collection.emplace. destruct (m !! k) eqn:Hk; simpl.
  - apply elem_of_dom_2 in Hk. apply set_eq. intros k'.
    rewrite elem_of_union, elem_of_singleton. naive_solver.
  - by rewrite dom_insert_L.
Qed.

Lemma emplace_lookup_Some {V} (k k' : ghobject_t) (v v' : V)
    (m : gmap ghobject_t V) :
  m !! k' = Some v' → (Collection.emplace k v m).1 !! k' = Some v'.
Proof.
  intros Hk'. unfold Collection.emplace. destruct (m !! k) eqn:Hk; simpl; [done|].
  rewrite lookup_insert_ne; [done|]. intros ->. congruence.
Qed.

(** C7: [Collection.get_object(k)] returns the reference stored under [k] in
    [Collection.object_hash], or the empty reference when [k] is absent, and leaves
    every data member of the collection as it was: nothing is inserted
    into [Collection.object_hash] or [Collection.object_map].  The Collection.method takes no heap and
    returns none, so it constructs no object; its only effect is on the
    lock, taken for reading and released. *)
Theorem get_object_reads_only c oid :
  (Collection.get_object oid c).1 = default None (Collection.object_hash c !! oid) ∧
  (oid ∉ dom (Collection.object_hash c) → (Collection.get_object oid c).1 = None) ∧
  Collection.object_hash (Collection.get_object oid c).2 = Collection.object_hash c ∧
  Collection.object_map (Collection.get_object oid c).2 = Collection.object_map c ∧
  Collection.xattr (Collection.get_object oid c).2 = Collection.xattr c ∧
  Collection.use_page_set (Collection.get_object oid c).2 = Collection.use_page_set c ∧
  Collection.cct (Collection.get_object oid c).2 = Collection.cct c ∧
  Collection.lock (Collection.get_object oid c).2
  = Collection.lock c ++ [Collection.get_read; Collection.unlock].
Proof.
  unfold Collection.get_object. simpl.
  destruct (Collection.object_hash c !! oid) as [r|] eqn:Hoid; simpl;
    (split_and!; [done| |done..|by rewrite <-app_assoc]).
  - intros Hn%not_elem_of_dom. congruence.
  - done.
Qed.

Lemma get_or_create_object_present c h oid r :
  Collection.object_hash c !! oid = Some r →
  Collection.get_or_create_object oid c h = (r, Collection.release (Collection.WLocker c), h).
Proof.
  intros Hoid. unfold Collection.get_or_create_object, Collection.emplace. simpl.
  by rewrite Hoid; simpl; rewrite Hoid.
Qed.

Lemma get_or_create_object_absent c h oid :
  Collection.object_hash c !! oid = None →
  Collection.get_or_create_object oid c h =
    (Some (fresh (dom h)),
     Collection.release (Collection.set_indices (<[oid := Some (fresh (dom h))]> (Collection.object_hash c))
                          (<[oid := Some (fresh (dom h))]> (Collection.object_map c))
                          (Collection.WLocker c)),
     <[fresh (dom h) := Collection.new_object c]> h).
Proof.
  intros Hoid. unfold Collection.get_or_create_object, Collection.emplace. simpl.
  rewrite Hoid. simpl. unfold Collection.set_indices, Collection.release, Collection.log. simpl.
  by rewrite insert_insert_eq.
Qed.

Context `{BitwiseComparator : Comparator ghobject_t}.
Context `{Encodable ghobject_t}.

Lemma decode_objects_lookup s c h p oid r :
  Collection.object_hash c !! oid = Some r →
  Collection.object_hash (Collection.decode_objects s c h p).1.1 !! oid = Some r.
Proof.
  revert c h p. induction s as [|s IH]; intros c h p Hoid; simpl; [done|].
  destruct (decode p) as [[k p1]|e]; [|done].
  destruct (Collection.create_object c h) as [o h1].
  destruct (Object.decode _ p1) as [[obj p2]|e]; [|done].
  apply IH. simpl. by apply emplace_lookup_Some.
Qed.

Lemma decode_lookup c h p oid r :
  Collection.object_hash c !! oid = Some r →
  Collection.object_hash (Collection.decode c h p).1.1 !! oid = Some r.
Proof.
  intros Hoid. unfold Collection.decode.
  destruct (DECODE_START 1 p) as [[hd p1]|e]; [|done].
  destruct (wire_decode_xattr p1) as [[x p2]|e]; [|done].
  destruct (decode_bool p2) as [[b p3]|e]; [|done].
  destruct (decode_u32 p3) as [[n p4]|e]; [|done].
  pose proof (decode_objects_lookup (N.to_nat n)
                (Collection.set_use_page_set b (Collection.set_xattr x c)) h p4 oid r Hoid) as Hl.
  destruct (Collection.decode_objects _ _ _ _) as [[c' h'] [[u p5]|e]]; exact Hl.
Qed.

(** No Collection.method of the collection takes an entry out of [Collection.object_hash]. *)
Lemma invoke_lookup (m : Collection.method ghobject_t) c h oid r :
  Collection.object_hash c !! oid = Some r →
  Collection.object_hash (Collection.invoke m (c, h)).1 !! oid = Some r.
Proof.
  intros Hoid. destruct m as [oid'|oid'|bl|p|]; simpl; try done.
  - unfold Collection.get_object. simpl.
    by destruct (Collection.object_hash c !! oid').
  - destruct (Collection.object_hash c !! oid') as [r'|] eqn:Hoid'.
    + by rewrite (get_or_create_object_present _ _ _ _ Hoid').
    + rewrite (get_or_create_object_absent _ _ _ Hoid'). simpl.
      rewrite lookup_insert_ne; [done|]. intros ->. congruence.
  - by apply decode_lookup.
Qed.

Lemma invoke_all_lookup (ms : list (Collection.method ghobject_t)) c h oid r :
  Collection.object_hash c !! oid = Some r →
  Collection.object_hash (Collection.invoke_all ms (c, h)).1 !! oid = Some r.
Proof.
  revert c h. induction ms as [|m ms IH]; intros c h Hoid; simpl; [done|].
  pose proof (invoke_lookup m c h oid r Hoid) as Hm.
  destruct (Collection.invoke m (c, h)) as [c1 h1]. by apply IH.
Qed.

(** C2: two calls of [Collection.get_or_create_object(k)] return the same reference,
    whatever methods of the collection run in between (none of them
    removes an entry).  The first call, when [k] is absent, constructs one
    object at a fresh address and stores its reference under [k] in both
    indices; when [k] is present it returns the stored reference.  The
    second call constructs nothing: it leaves the heap and both indices
    as it found them. *)
Theorem get_or_create_object_idempotent c h oid
    (between : list (Collection.method ghobject_t)) :
  let '(r1, c1, h1) := Collection.get_or_create_object oid c h in
  let '(c', h') := Collection.invoke_all between (c1, h1) in
  let '(r2, c2, h2) := Collection.get_or_create_object oid c' h' in
  r2 = r1 ∧ h2 = h' ∧
  Collection.object_hash c2 = Collection.object_hash c' ∧ Collection.object_map c2 = Collection.object_map c' ∧
  match Collection.object_hash c !! oid with
  | None =>
      ∃ a, r1 = Some a ∧ h !! a = None ∧ h1 = <[a := Collection.new_object c]> h ∧
           Collection.object_hash c1 = <[oid := Some a]> (Collection.object_hash c) ∧
           Collection.object_map c1 = <[oid := Some a]> (Collection.object_map c)
  | Some r =>
      r1 = r ∧ h1 = h ∧
      Collection.object_hash c1 = Collection.object_hash c ∧ Collection.object_map c1 = Collection.object_map c
  end.
Proof.
  assert (∃ r1 c1 h1, Collection.get_or_create_object oid c h = (r1, c1, h1) ∧
            Collection.object_hash c1 !! oid = Some r1 ∧
            match Collection.object_hash c !! oid with
            | None =>
                ∃ a, r1 = Some a ∧ h !! a = None ∧
                     h1 = <[a := Collection.new_object c]> h ∧
                     Collection.object_hash c1 = <[oid := Some a]> (Collection.object_hash c) ∧
                     Collection.object_map c1 = <[oid := Some a]> (Collection.object_map c)
            | Some r =>
                r1 = r ∧ h1 = h ∧
                Collection.object_hash c1 = Collection.object_hash c ∧ Collection.object_map c1 = Collection.object_map c
            end) as (r1 & c1 & h1 & -> & Hstored & Hfirst).
  { destruct (Collection.object_hash c !! oid) as [r|] eqn:Hoid.
    - rewrite (get_or_create_object_present _ _ _ _ Hoid).
      eexists _, _, _. split; [done|]. simpl. by split_and!.
    - rewrite (get_or_create_object_absent _ _ _ Hoid).
      eexists _, _, _. split; [done|]. simpl.
      split; [by rewrite lookup_insert_eq|].
      eexists. split_and!; try done.
      apply not_elem_of_dom, is_fresh. }
  pose proof (invoke_all_lookup between c1 h1 oid r1 Hstored) as Hkept.
  destruct (Collection.invoke_all between (c1, h1)) as [c' h']. simpl in Hkept.
  rewrite (get_or_create_object_present _ _ _ _ Hkept).
  by split_and!.
Qed.

(** *** [used_bytes] *)

Lemma sumN_perm (l1 l2 : list N) :
  l1 ≡ₚ l2 → Collection.sumN l1 = Collection.sumN l2.
Proof.
  induction 1 as [|x l1 l2 _ IH|x y l|l1 l2 l3 _ IH1 _ IH2]; simpl;
    [done|by rewrite IH|lia|by rewrite IH1].
Qed.

Lemma used_bytes_loop_sum h (l : list (ghobject_t * ObjectRef)) (acc : N) :
  (∀ e, e ∈ l → is_Some (deref h e.2)) → acc < u64_max →
  Collection.used_bytes_loop h l acc
  = Some ((acc + Collection.sumN ((λ e, Collection.size_at h e.2) <$> l))
          mod u64_max).
Proof.
  revert acc. induction l as [|[k r] l IH]; intros acc Hlive Hacc; simpl.
  - by rewrite N.add_0_r, N.mod_small.
  - destruct (Hlive (k, r)) as [o Ho]; [by left|]. simpl in Ho.
    unfold Collection.size_at at 1. rewrite Ho. simpl.
    rewrite IH.
    + f_equal. by rewrite N.Div0.add_mod_idemp_l, N.add_assoc.
    + intros e He. apply Hlive. by right.
    + by apply N.mod_lt.
Qed.

(** C5, as the code has it: [used_bytes()] adds [get_size()] over the
    objects of [object_map] in a 64-bit accumulator, so it returns their
    sum modulo [2^64], which is the sum itself whenever that is below
    [2^64], and [0] for an empty collection.  It returns the collection as
    it received it: the lock is not taken. *)
Theorem used_bytes_wrapped_sum h c :
  Collection.live h c →
  (Collection.used_bytes h c).1
    = Some (Collection.total_size h c mod u64_max) ∧
  (Collection.total_size h c < u64_max →
   (Collection.used_bytes h c).1 = Some (Collection.total_size h c)) ∧
  (Collection.object_map c = ∅ → (Collection.used_bytes h c).1 = Some 0) ∧
  (Collection.used_bytes h c).2 = c.
Proof.
  intros Hlive.
  assert ((Collection.used_bytes h c).1
          = Some (Collection.total_size h c mod u64_max)) as Hsum.
  { unfold Collection.used_bytes, Collection.total_size. simpl.
    rewrite used_bytes_loop_sum;
      [|by intros [k r] ?%elem_of_inorder; eapply Hlive|done].
    rewrite N.add_0_l. do 2 f_equal. apply sumN_perm.
    by rewrite inorder_perm. }
  split_and!; [done| | |done].
  - intros Hlt. by rewrite Hsum, N.mod_small.
  - intros Hempty. rewrite Hsum. unfold Collection.total_size.
    by rewrite Hempty, map_to_list_empty.
Qed.

(** *** The two indices *)

Lemma indices_agree_create (cct0 : CephContext) :
  Collection.indices_agree (Collection.create (ghobject_t := ghobject_t) cct0).
Proof. done. Qed.

Lemma indices_agree_get_or_create_object c h oid :
  Collection.indices_agree c →
  Collection.indices_agree (Collection.get_or_create_object oid c h).1.2.
Proof.
  unfold Collection.indices_agree. intros Hc.
  destruct (Collection.object_hash c !! oid) as [r|] eqn:Hoid.
  - by rewrite (get_or_create_object_present _ _ _ _ Hoid).
  - rewrite (get_or_create_object_absent _ _ _ Hoid). simpl.
    by rewrite !dom_insert_L, Hc.
Qed.

Lemma indices_agree_decode_objects s c h p :
  Collection.indices_agree c →
  Collection.indices_agree (Collection.decode_objects s c h p).1.1.
Proof.
  revert c h p. induction s as [|s IH]; intros c h p Hc; simpl; [done|].
  destruct (decode p) as [[k p1]|e]; [|done].
  destruct (Collection.create_object c h) as [o h1].
  destruct (Object.decode _ p1) as [[obj p2]|e]; [|done].
  apply IH. unfold Collection.indices_agree in *. simpl.
  by rewrite !dom_emplace, Hc.
Qed.

(** [decode] keeps the indices in step also when it throws half-way. *)
Lemma indices_agree_decode c h p :
  Collection.indices_agree c →
  Collection.indices_agree (Collection.decode c h p).1.1.
Proof.
  intros Hc. unfold Collection.decode.
  destruct (DECODE_START 1 p) as [[hd p1]|e]; [|done].
  destruct (wire_decode_xattr p1) as [[x p2]|e]; [|done].
  destruct (decode_bool p2) as [[b p3]|e]; [|done].
  destruct (decode_u32 p3) as [[n p4]|e]; [|done].
  pose proof (indices_agree_decode_objects (N.to_nat n)
                (Collection.set_use_page_set b (Collection.set_xattr x c))
                h p4 Hc) as Hl.
  destruct (Collection.decode_objects _ _ _ _) as [[c' h'] [[u p5]|e]];
    exact Hl.
Qed.

Lemma indices_agree_invoke (m : Collection.method ghobject_t) c h :
  Collection.indices_agree c →
  Collection.indices_agree (Collection.invoke m (c, h)).1.
Proof.
  intros Hc. destruct m as [oid|oid|bl|p|]; simpl; try done.
  - unfold Collection.get_object. simpl.
    by destruct (Collection.object_hash c !! oid).
  - pose proof (indices_agree_get_or_create_object c h oid Hc) as Hg.
    by destruct (Collection.get_or_create_object oid c h) as [[r c1] h1].
  - by apply indices_agree_decode.
Qed.

Lemma indices_agree_invoke_all (ms : list (Collection.method ghobject_t)) c h :
  Collection.indices_agree c →
  Collection.indices_agree (Collection.invoke_all ms (c, h)).1.
Proof.
  revert c h. induction ms as [|m ms IH]; intros c h Hc; simpl; [done|].
  pose proof (indices_agree_invoke m c h Hc) as Hm.
  destruct (Collection.invoke m (c, h)) as [c1 h1]. by apply IH.
Qed.

Context `{Countable coll_t}.
Implicit Types (st : MemStore.t coll_t ghobject_t).

Lemma indices_agree_erase c oid :
  Collection.indices_agree c → Collection.indices_agree (MemStore.erase oid c).
Proof.
  unfold Collection.indices_agree, MemStore.erase. simpl. intros Hc.
  by rewrite !dom_delete_L, Hc.
Qed.

Lemma indices_agree_link c oid o :
  Collection.indices_agree c → Collection.indices_agree (MemStore.link oid o c).
Proof.
  unfold Collection.indices_agree, MemStore.link. simpl. intros Hc.
  by rewrite !dom_insert_L, Hc.
Qed.

Lemma indices_agree_insert st cid c :
  MemStore.indices_agree st → Collection.indices_agree c →
  MemStore.indices_agree
    (MemStore.set_coll_map (<[cid := c]> (MemStore.coll_map st)) st).
Proof.
  intros Hst Hc cid' c'. simpl. rewrite lookup_insert.
  case_decide; [by intros [= <-]|]. apply Hst.
Qed.

Lemma indices_agree_step (x : MemStore.call coll_t ghobject_t) st :
  MemStore.indices_agree st → MemStore.indices_agree (MemStore.step x st).
Proof.
  intros Hst. destruct x as [cid|cid oid|oldcid oldoid cid oid|cid m]; simpl.
  - unfold MemStore._create_collection.
    destruct (MemStore.coll_map st !! cid); [done|]. simpl.
    apply indices_agree_insert; [done|]. apply indices_agree_create.
  - unfold MemStore._remove.
    destruct (MemStore.coll_map st !! cid) as [c|] eqn:Hcid; [|done].
    destruct (Collection.object_hash c !! oid); [|done]. simpl.
    apply indices_agree_insert; [done|].
    apply indices_agree_erase. by eapply Hst.
  - unfold MemStore._collection_move_rename.
    destruct (MemStore.coll_map st !! cid) as [c|] eqn:Hcid; [|done].
    destruct (MemStore.coll_map st !! oldcid) as [oc|] eqn:Holdcid; [|done].
    destruct (Collection.object_hash c !! oid); [done|].
    destruct (Collection.object_hash oc !! oldoid) as [o|]; [|done]. simpl.
    intros cid' c'. simpl. rewrite lookup_alter.
    case_decide as Hc; [subst cid'|].
    + rewrite lookup_insert. case_decide.
      * intros [= <-]. apply indices_agree_erase, indices_agree_link.
        by eapply Hst.
      * rewrite Holdcid. intros [= <-]. apply indices_agree_erase.
        by eapply Hst.
    + rewrite lookup_insert. case_decide.
      * intros [= <-]. apply indices_agree_link. by eapply Hst.
      * apply Hst.
  - destruct (MemStore.coll_map st !! cid) as [c|] eqn:Hcid; [|done].
    pose proof (indices_agree_invoke m c (MemStore.heap st)
                  (Hst _ _ Hcid)) as Hm.
    destruct (Collection.invoke m (c, MemStore.heap st)) as [c1 h1].
    intros cid' c'. simpl. rewrite lookup_insert.
    case_decide; [by intros [= <-]|]. apply Hst.
Qed.

(** C1: the two indices of a collection hold the same keys.  It is so for
    the collection that the constructor builds, every method of the
    collection keeps it so ([get_or_create_object], and [decode] also when
    it throws), and so do the handlers that remove an object or move it
    from one collection to another: after any sequence of calls from the
    empty store, the indices of every collection agree. *)
Theorem object_hash_object_map_same_keys (cct0 : CephContext)
    (h : Heap) (ms : list (Collection.method ghobject_t))
    (xs : list (MemStore.call coll_t ghobject_t)) :
  Collection.indices_agree
    (Collection.invoke_all ms (Collection.create cct0, h)).1 ∧
  MemStore.indices_agree (MemStore.run xs (MemStore.create cct0)).
Proof.
  split.
  - apply indices_agree_invoke_all, indices_agree_create.
  - assert (MemStore.indices_agree
              (MemStore.create (coll_t := coll_t) (ghobject_t := ghobject_t)
                 cct0)) as Hinit by (intros cid c; simpl; by rewrite lookup_empty).
    revert Hinit. generalize (MemStore.create (coll_t := coll_t)
                                (ghobject_t := ghobject_t) cct0).
    induction xs as [|x xs IH]; intros st Hst; simpl; [done|].
    by apply IH, indices_agree_step.
Qed.

End collection_facts.

(** ** Objects and collections on the wire *)

(** X1: inside the versioned envelope, [encode] writes the payload-specific
    fields first (the data buffer for the contiguous variant; [data_len],
    then the page set for the paged variant) and then the common fields in
    the order attributes, omap header, omap; [decode], called on an object
    of the same variant, reads the stream back in that order and returns
    the object that was written. *)
Theorem object_encode_decode_field_order (o receiver : Object.t)
    (bl rest : bufferlist) :
  match o with
  | Object.BufferlistObject b data =>
      Object.encode o bl
      = bl ++ envelope 1 1 (encode data [] ++ encode (Object.xattr b) []
                            ++ encode (Object.omap_header b) []
                            ++ encode (Object.omap b) [])
  | Object.PageSetObject b data data_len =>
      Object.encode o bl
      = bl ++ envelope 1 1 (encode_u64 data_len [] ++ PageSet.encode data []
                            ++ encode (Object.xattr b) []
                            ++ encode (Object.omap_header b) []
                            ++ encode (Object.omap b) [])
  end ∧
  (Object.fits o → Object.is_paged receiver = Object.is_paged o →
   Object.decode receiver (Object.encode o [] ++ rest) = Ok (o, rest)).
Proof.
  split.
  - rewrite Object_encode_envelope. by destruct o.
  - intros Hfits Hv. rewrite Object_encode_envelope.
    by apply Object_decode_encode.
Qed.

Section collection_wire.
Context `{Countable ghobject_t}.
Context `{BitwiseComparator : Comparator ghobject_t}.
Context `{Encodable ghobject_t} `{!Wire ghobject_t}.
Implicit Types (c : Collection.t ghobject_t) (h : Heap).
Implicit Types (l : list (ghobject_t * ObjectRef)).

Lemma encode_objects_image h l (bl0 bl1 : bufferlist) :
  Collection.encode_objects h l bl0 = Some bl1 →
  bl1 = bl0 ++ Collection.entries_image h l.
Proof.
  revert bl0. induction l as [|[k r] l IH]; intros bl0; simpl.
  - intros [= <-]. by rewrite app_nil_r.
  - destruct (deref h r) as [o|] eqn:Hr; [|done]. intros ->%IH.
    unfold Collection.entries_image. rewrite fmap_cons. cbn [concat].
    unfold Collection.entry_image at 2. cbn [fst snd]. rewrite Hr. simpl.
    rewrite Object_encode_envelope, (Object_encode_envelope o []).
    rewrite (encode_app k bl0). by rewrite <-!app_assoc.
Qed.

Lemma Collection_encode_envelope h c (bl0 bl : bufferlist) :
  Collection.encode h c bl0 = Some bl →
  bl = bl0 ++ envelope 1 1 (Collection.fields h c).
Proof.
  unfold Collection.encode.
  destruct (ENCODE_START 1 1 bl0) as [bl1 pos] eqn:Hs.
  destruct (Collection.encode_objects _ _ _) as [bl2|] eqn:He; [|done].
  intros [= <-]. apply encode_objects_image in He as ->.
  unfold wire_encode_xattr. rewrite (encode_app (Collection.xattr c) bl1).
  unfold encode_bool, encode_u8, encode_u32, encode_uint.
  rewrite <-!app_assoc.
  replace bl1 with (ENCODE_START 1 1 bl0).1 by by rewrite Hs.
  replace pos with (ENCODE_START 1 1 bl0).2 by by rewrite Hs.
  rewrite ENCODE_envelope. by unfold Collection.fields.
Qed.

(** The loop invariant of [decode]: the entries read so far are in both
    indices, each under a reference to a copy of its object. *)
Definition rebuilt h l c (h' : Heap) : Prop :=
  Collection.object_hash c = Collection.object_map c ∧
  dom (Collection.object_map c) = list_to_set l.*1 ∧
  ∀ k r, (k, r) ∈ l →
    ∃ a o, Collection.object_map c !! k = Some (Some a) ∧
           h' !! a = Some o ∧ deref h r = Some o.

Lemma is_paged_new_object c :
  Object.is_paged (Collection.new_object c) = Collection.use_page_set c.
Proof. unfold Collection.new_object. by destruct (Collection.use_page_set c). Qed.

Lemma decode_objects_rebuilds h l (seen : list (ghobject_t * ObjectRef)) c
    (h' : Heap) (rest : bufferlist) :
  NoDup (seen ++ l).*1 →
  (∀ k r, (k, r) ∈ l →
     fits k ∧ ∃ o, deref h r = Some o ∧ Object.fits o ∧
                   Object.is_paged o = Collection.use_page_set c) →
  rebuilt h seen c h' →
  ∃ c1 h1,
    Collection.decode_objects (length l) c h'
      (Collection.entries_image h l ++ rest) = (c1, h1, Ok (tt, rest)) ∧
    Collection.xattr c1 = Collection.xattr c ∧
    Collection.use_page_set c1 = Collection.use_page_set c ∧
    rebuilt h (seen ++ l) c1 h1.
Proof.
  revert seen c h'. induction l as [|[k r] l IH]; intros seen c h' Hnd Hl Hinv.
  - simpl. exists c, h'. by rewrite app_nil_r.
  - destruct (Hl k r) as (Hk & o & Hr & Ho & Hv); [by left|].
    cbn [length Collection.decode_objects].
    unfold Collection.entries_image. rewrite fmap_cons. cbn [concat].
    fold (Collection.entries_image h l).
    unfold Collection.entry_image. cbn [fst snd]. rewrite Hr. cbn [from_option].
    rewrite <-!app_assoc, (decode_encode k) by done.
    unfold Collection.create_object, new.
    rewrite Object_encode_envelope, app_nil_l.
    rewrite Object_decode_encode by (by rewrite ?is_paged_new_object).
    cbn [store].
    set (a := fresh (dom h')).
    assert (h' !! a = None) as Ha by apply not_elem_of_dom, is_fresh.
    destruct Hinv as (Hsame & Hdom & Hseen).
    assert (k ∉ seen.*1) as Hkseen.
    { rewrite fmap_app, fmap_cons in Hnd. apply NoDup_app in Hnd as (_ & Hd & _).
      intros Hin. apply (Hd k Hin). by left. }
    assert (Collection.object_map c !! k = None) as Hkmap.
    { apply not_elem_of_dom. rewrite Hdom. by rewrite elem_of_list_to_set. }
    destruct (IH (seen ++ [(k, r)])
                (Collection.set_indices
                   (Collection.emplace k (Some a) (Collection.object_hash c)).1
                   (Collection.emplace k (Some a) (Collection.object_map c)).1 c)
                (<[a := o]> (<[a := Collection.new_object c]> h')))
      as (c1 & h1 & Hdec & Hx & Hf & Hreb).
    + by rewrite <-app_assoc.
    + intros k' r' Hin. apply Hl. by right.
    + unfold Collection.emplace. rewrite Hsame, Hkmap.
      unfold rebuilt. simpl. split_and!; [done| |].
      * rewrite dom_insert_L, Hdom, fmap_app, list_to_set_app_L. simpl.
        set_solver.
      * intros k' r' [Hin|Hin%list_elem_of_singleton]%elem_of_app.
        -- destruct (Hseen k' r' Hin) as (a' & o' & Hm' & Hh' & Hr').
           exists a', o'. split_and!; [|by rewrite insert_insert_eq, lookup_insert_ne by congruence|done].
           rewrite lookup_insert_ne; [done|]. intros <-.
           apply Hkseen. apply list_elem_of_fmap. by exists (k, r').
        -- injection Hin as -> ->. exists a, o.
           by rewrite !lookup_insert_eq.
    + exists c1, h1. rewrite <-app_assoc in Hreb. by split_and!.
Qed.

Lemma list_to_set_inorder_keys {V} (m : gmap ghobject_t V) :
  list_to_set (inorder m).*1 = dom m.
Proof.
  apply set_eq. intros k.
  rewrite elem_of_list_to_set, list_elem_of_fmap, elem_of_dom. split.
  - intros ([k' v] & -> & Hin%elem_of_inorder). by exists v.
  - intros [v Hv]. exists (k, v). split; [done|]. by apply elem_of_inorder.
Qed.

(** X2: for a collection that fits the format
    ([Collection.fits]: live references, every object of the variant that
    [use_page_set] names, lengths and counts below [2^32]) and whose
    encoding fits in a buffer, decoding the stream that [encode] produced
    into a freshly constructed collection succeeds, consumes exactly that
    stream, and rebuilds a collection with the same attributes, the same
    variant flag, the same key set in both indices, and under every key an
    object equal to the original one: same variant, payload, attributes,
    omap header and omap. *)
Theorem collection_encode_decode h c (bl rest : bufferlist)
    (cct0 : CephContext) (h0 : Heap) :
  Collection.encode h c [] = Some bl → fits_bytes bl → Collection.fits h c →
  ∃ c1 h1,
    Collection.decode (Collection.create cct0) h0 (bl ++ rest)
      = (c1, h1, Ok (tt, rest)) ∧
    Collection.xattr c1 = Collection.xattr c ∧
    Collection.use_page_set c1 = Collection.use_page_set c ∧
    dom (Collection.object_map c1) = dom (Collection.object_map c) ∧
    Collection.object_hash c1 = Collection.object_map c1 ∧
    ∀ k, Collection.object_map c1 !! k ≫= deref h1
         = Collection.object_map c !! k ≫= deref h.
Proof.
  intros Henc Hbl (Hx & Hsize & Hobjs).
  apply Collection_encode_envelope in Henc as ->. rewrite app_nil_l in *.
  assert (fits_bytes (Collection.fields h c)) as Hbody.
  { unfold fits_bytes, envelope in *. rewrite !length_app in Hbl. lia. }
  unfold Collection.decode.
  rewrite DECODE_START_envelope by (done || lia).
  unfold Collection.fields. rewrite <-!app_assoc.
  unfold wire_decode_xattr, wire_encode_xattr.
  rewrite (decode_encode (Collection.xattr c)) by done.
  rewrite decode_bool_encode.
  unfold decode_u32. rewrite decode_uint_le_bytes by (by apply N.mod_lt).
  rewrite N.mod_small, Nat2N.id, <-length_inorder by done.
  destruct (decode_objects_rebuilds h (inorder (Collection.object_map c)) []
              (Collection.set_use_page_set (Collection.use_page_set c)
                 (Collection.set_xattr (Collection.xattr c)
                    (Collection.create cct0)))
              h0 rest) as (c1 & h1 & Hdec & Hx1 & Hf1 & Hsame & Hdom & Hall).
  { apply NoDup_fst_inorder. }
  { intros k r Hin%elem_of_inorder. apply (Hobjs k r Hin). }
  { split_and!; [done|done|]. intros k r Hin. by apply elem_of_nil in Hin. }
  rewrite Hdec. cbn [snd]. rewrite DECODE_FINISH_exact.
  rewrite app_nil_l, list_to_set_inorder_keys in Hdom.
  exists c1, h1. split_and!; try done.
  intros k. destruct (Collection.object_map c !! k) as [r|] eqn:Hk.
  - destruct (Hall k r) as (a & o & -> & Ha & Hr); [by apply elem_of_inorder|].
    simpl. by rewrite Ha, Hr.
  - apply not_elem_of_dom in Hk. rewrite <-Hdom in Hk.
    apply not_elem_of_dom in Hk. by rewrite Hk.
Qed.

End collection_wire.

(** ** What every method of a collection keeps *)

Section collection_frame.
Context `{Countable ghobject_t}.
Context `{BitwiseComparator : Comparator ghobject_t}.
Context `{Encodable ghobject_t}.
Implicit Types (c : Collection.t ghobject_t) (h : Heap) (oid : ghobject_t).
Implicit Types (m : Collection.method ghobject_t).
Implicit Types (ms : list (Collection.method ghobject_t)).

Lemma new_heap_grows (o : Object.t) h : h ⊆ (new o h).2.
Proof. apply insert_subseteq, not_elem_of_dom, is_fresh. Qed.

Lemma deref_weaken h h' (r : ObjectRef) (o : Object.t) :
  h ⊆ h' → deref h r = Some o → deref h' r = Some o.
Proof.
  intros Hsub. destruct r as [a|]; [|done]. simpl. intros Ha.
  by eapply lookup_weaken.
Qed.

Lemma decode_objects_lookup_map s c h (p : bufferlist) oid r :
  Collection.object_map c !! oid = Some r →
  Collection.object_map (Collection.decode_objects s c h p).1.1 !! oid = Some r.
Proof.
  revert c h p. induction s as [|s IH]; intros c h p Hoid; simpl; [done|].
  destruct (decode p) as [[k p1]|e]; [|done].
  destruct (Collection.create_object c h) as [o h1].
  destruct (Object.decode _ p1) as [[obj p2]|e]; [|done].
  apply IH. simpl. by apply emplace_lookup_Some.
Qed.

(** [decode] fills the receiver: the variant stays. *)
Lemma Object_decode_variant (receiver obj : Object.t) (p p' : bufferlist) :
  Object.decode receiver p = Ok (obj, p') →
  Object.is_paged obj = Object.is_paged receiver.
Proof.
  destruct receiver as [b0 d0|b0 d0 l0]; unfold Object.decode.
  - destruct (DECODE_START 1 p) as [[hd p1]|e]; [|done]. unfold bindD at 1.
    destruct (decode p1) as [[data p2]|e]; [|done]. unfold bindD at 1.
    destruct (Object.decode_base p2) as [[b p3]|e]; [|done]. unfold bindD at 1.
    destruct (DECODE_FINISH hd.2 p3) as [[u p4]|e]; [|done]. simpl.
    by intros [= <- _].
  - destruct (DECODE_START 1 p) as [[hd p1]|e]; [|done]. unfold bindD at 1.
    destruct (decode_u64 p1) as [[len p2]|e]; [|done]. unfold bindD at 1.
    destruct (PageSet.decode p2) as [[data p3]|e]; [|done]. unfold bindD at 1.
    destruct (Object.decode_base p3) as [[b p4]|e]; [|done]. unfold bindD at 1.
    destruct (DECODE_FINISH hd.2 p4) as [[u p5]|e]; [|done]. simpl.
    by intros [= <- _].
Qed.

(** Every step of the loop of [decode] fits this pattern: a property of
    the collection and the heap that survives an insertion at a fresh
    address survives the loop, thrown out of or not. *)
Lemma decode_objects_invariant (P : Collection.t ghobject_t → Heap → Prop)
    s c h (p : bufferlist) :
  (∀ c h o, P c h → P c (new o h).2) →
  (∀ c h k o obj, P c h →
     Object.is_paged obj = Object.is_paged (Collection.new_object c) →
     P (Collection.set_indices
          (Collection.emplace k (Some (fresh (dom h))) (Collection.object_hash c)).1
          (Collection.emplace k (Some (fresh (dom h))) (Collection.object_map c)).1
          c)
       (<[fresh (dom h) := obj]> (new o h).2)) →
  P c h →
  P (Collection.decode_objects s c h p).1.1 (Collection.decode_objects s c h p).1.2.
Proof.
  intros Hnew Hins. revert c h p.
  induction s as [|s IH]; intros c h p HP; simpl; [done|].
  destruct (decode p) as [[k p1]|e]; [|done].
  unfold Collection.create_object.
  pose proof (Hnew c h (Collection.new_object c) HP) as HP1.
  pose proof (Hins c h k (Collection.new_object c)) as HP2.
  unfold new in *. simpl in *.
  destruct (Object.decode _ p1) as [[obj p2]|e] eqn:Hobj; [|done].
  apply IH. apply HP2; [done|]. by eapply Object_decode_variant.
Qed.

Lemma decode_invariant (P : Collection.t ghobject_t → Heap → Prop)
    c h (p : bufferlist) :
  (∀ c h o, P c h → P c (new o h).2) →
  (∀ c h k o obj, P c h →
     Object.is_paged obj = Object.is_paged (Collection.new_object c) →
     P (Collection.set_indices
          (Collection.emplace k (Some (fresh (dom h))) (Collection.object_hash c)).1
          (Collection.emplace k (Some (fresh (dom h))) (Collection.object_map c)).1
          c)
       (<[fresh (dom h) := obj]> (new o h).2)) →
  (∀ c h x, P c h → P (Collection.set_xattr x c) h) →
  (∀ c h b, P c h → P (Collection.set_use_page_set b c) h) →
  P c h →
  P (Collection.decode c h p).1.1 (Collection.decode c h p).1.2.
Proof.
  intros Hnew Hins Hx Hb HP. unfold Collection.decode.
  destruct (DECODE_START 1 p) as [[hd p1]|e]; [|done].
  destruct (wire_decode_xattr p1) as [[x p2]|e]; [|done].
  destruct (decode_bool p2) as [[b p3]|e]; [|by apply Hx].
  destruct (decode_u32 p3) as [[n p4]|e]; [|by apply Hb, Hx].
  pose proof (decode_objects_invariant P (N.to_nat n)
                (Collection.set_use_page_set b (Collection.set_xattr x c))
                h p4 Hnew Hins (Hb _ _ _ (Hx _ _ _ HP))) as Hl.
  destruct (Collection.decode_objects _ _ _ _) as [[c' h'] [[u p5]|e]];
    exact Hl.
Qed.

(** *** Existing objects and entries are never touched *)

Lemma invoke_heap_grows m c h : h ⊆ (Collection.invoke m (c, h)).2.
Proof.
  destruct m as [oid|oid|bl|p|]; simpl; try done.
  - destruct (Collection.object_hash c !! oid) as [r|] eqn:Hoid.
    + by rewrite (get_or_create_object_present _ _ _ _ Hoid).
    + rewrite (get_or_create_object_absent _ _ _ Hoid). simpl.
      apply insert_subseteq, not_elem_of_dom, is_fresh.
  - apply (decode_invariant (λ _ h', h ⊆ h')); try done.
    + intros _ h1 o Hh. etrans; [exact Hh|apply new_heap_grows].
    + intros _ h1 _ o obj Hh _. etrans; [exact Hh|]. unfold new. simpl.
      rewrite insert_insert_eq.
      apply insert_subseteq, not_elem_of_dom, is_fresh.
Qed.

(** X3: no method of a collection modifies or frees an object that is
    already in the heap: after any sequence of calls ([get_object],
    [get_or_create_object], [encode], [decode], [used_bytes]; [decode] also
    when it throws) every address allocated before holds the object it held,
    and the heap has only grown. *)
Theorem methods_leave_existing_objects ms c h :
  h ⊆ (Collection.invoke_all ms (c, h)).2 ∧
  ∀ (r : ObjectRef) (o : Object.t),
    deref h r = Some o →
    deref (Collection.invoke_all ms (c, h)).2 r = Some o.
Proof.
  assert (h ⊆ (Collection.invoke_all ms (c, h)).2) as Hsub.
  { revert c h. induction ms as [|m ms IH]; intros c h; simpl; [done|].
    pose proof (invoke_heap_grows m c h) as Hm.
    destruct (Collection.invoke m (c, h)) as [c1 h1]. simpl in Hm.
    etrans; [exact Hm|apply IH]. }
  split; [done|]. intros r o. by apply deref_weaken.
Qed.

(** X4: [decode] inserts, it never replaces or removes: an entry that is in
    [object_hash] or in [object_map] before the call is there, with the same
    reference, after it, whether the call returns or throws, and also when
    the stream carries the same key again. *)
Theorem decode_keeps_existing_entries c h (p : bufferlist) oid (r : ObjectRef) :
  (Collection.object_hash c !! oid = Some r →
   Collection.object_hash (Collection.decode c h p).1.1 !! oid = Some r) ∧
  (Collection.object_map c !! oid = Some r →
   Collection.object_map (Collection.decode c h p).1.1 !! oid = Some r).
Proof.
  split; intros Hoid.
  - by apply decode_lookup.
  - apply (decode_invariant
             (λ c' _, Collection.object_map c' !! oid = Some r)); try done.
    intros c1 h1 k _ _ Hc1 _. simpl. by apply emplace_lookup_Some.
Qed.

(** *** Both indices hold the same references *)

Lemma same_references_invoke m c h :
  Collection.object_hash c = Collection.object_map c →
  Collection.object_hash (Collection.invoke m (c, h)).1
  = Collection.object_map (Collection.invoke m (c, h)).1.
Proof.
  intros Hc. destruct m as [oid|oid|bl|p|]; simpl; try done.
  - unfold Collection.get_object. simpl.
    by destruct (Collection.object_hash c !! oid).
  - destruct (Collection.object_hash c !! oid) as [r|] eqn:Hoid.
    + by rewrite (get_or_create_object_present _ _ _ _ Hoid).
    + rewrite (get_or_create_object_absent _ _ _ Hoid). simpl.
      by rewrite Hc.
  - apply (decode_invariant
             (λ c' _, Collection.object_hash c' = Collection.object_map c'));
      try done.
    intros c1 h1 k _ _ Hc1 _. simpl. by rewrite Hc1.
Qed.

(** X5: the two indices of a collection agree on more than their keys:
    after any sequence of calls on a freshly constructed collection,
    [object_hash] and [object_map] map every key to the same reference, so
    [get_object] (which reads [object_hash]) and the walks of [encode] and
    [used_bytes] (which read [object_map]) see the same object. *)
Theorem indices_hold_same_references (cct0 : CephContext) h ms :
  Collection.object_hash (Collection.invoke_all ms (Collection.create cct0, h)).1
  = Collection.object_map (Collection.invoke_all ms (Collection.create cct0, h)).1.
Proof.
  assert (Collection.object_hash (Collection.create (ghobject_t := ghobject_t) cct0)
          = Collection.object_map (Collection.create cct0)) as Hinit by done.
  revert Hinit. generalize (Collection.create (ghobject_t := ghobject_t) cct0).
  revert h. induction ms as [|m ms IH]; intros h c Hc; simpl; [done|].
  pose proof (same_references_invoke m c h Hc) as Hm.
  destruct (Collection.invoke m (c, h)) as [c1 h1]. by apply IH.
Qed.

(** *** References stay live *)

Lemma live_weaken h h' c :
  h ⊆ h' → Collection.live h c → Collection.live h' c.
Proof.
  intros Hsub Hlive k r Hk. destruct (Hlive k r Hk) as [o Ho].
  exists o. by eapply deref_weaken.
Qed.

Lemma live_invoke m c h :
  Collection.live h c →
  Collection.live (Collection.invoke m (c, h)).2 (Collection.invoke m (c, h)).1.
Proof.
  intros Hc. destruct m as [oid|oid|bl|p|]; simpl; try done.
  - unfold Collection.get_object. simpl.
    destruct (Collection.object_hash c !! oid); exact Hc.
  - destruct (Collection.object_hash c !! oid) as [r|] eqn:Hoid.
    + rewrite (get_or_create_object_present _ _ _ _ Hoid). exact Hc.
    + rewrite (get_or_create_object_absent _ _ _ Hoid).
      unfold Collection.live. simpl. apply map_Forall_insert_2.
      * simpl. rewrite lookup_insert_eq. by eexists.
      * eapply (live_weaken h); [|exact Hc].
        apply insert_subseteq, not_elem_of_dom, is_fresh.
  - apply (decode_invariant (λ c' h', Collection.live h' c')); try done.
    + intros c1 h1 o Hc1. eapply live_weaken; [apply new_heap_grows|done].
    + intros c1 h1 k o obj Hc1 _. unfold Collection.live, new. simpl.
      rewrite insert_insert_eq. unfold Collection.emplace.
      assert (h1 ⊆ <[fresh (dom h1) := obj]> h1) as Hsub
        by apply insert_subseteq, not_elem_of_dom, is_fresh.
      destruct (Collection.object_map c1 !! k); simpl.
      * by apply (live_weaken h1).
      * apply map_Forall_insert_2.
        -- simpl. rewrite lookup_insert_eq. by eexists.
        -- by apply (live_weaken h1).
Qed.

Lemma encode_objects_live h (l : list (ghobject_t * ObjectRef))
    (bl : bufferlist) :
  (∀ e, e ∈ l → is_Some (deref h e.2)) →
  is_Some (Collection.encode_objects h l bl).
Proof.
  revert bl. induction l as [|[k r] l IH]; intros bl Hl; simpl; [by eexists|].
  destruct (Hl (k, r)) as [o Ho]; [by left|]. simpl in Ho. rewrite Ho.
  apply IH. intros e He. apply Hl. by right.
Qed.

Lemma encode_live h c (bl : bufferlist) :
  Collection.live h c → is_Some (Collection.encode h c bl).
Proof.
  intros Hc. unfold Collection.encode.
  destruct (ENCODE_START 1 1 bl) as [bl1 pos].
  destruct (encode_objects_live h (inorder (Collection.object_map c))
              (encode_u32 (N.of_nat (size (Collection.object_map c)) mod u32_max)
                 (encode_bool (Collection.use_page_set c)
                    (wire_encode_xattr (Collection.xattr c) bl1))))
    as [bl2 ->]; [|by eexists].
  intros [k r] Hin%elem_of_inorder. by apply (Hc k r).
Qed.

(** X6: a collection never stores a null or dangling reference.  After any
    sequence of calls on a freshly constructed collection every reference
    of [object_map] points to an object of the heap, so the dereferences in
    [encode] and [used_bytes] are defined: both return a value. *)
Theorem references_stay_live (cct0 : CephContext) h ms (bl : bufferlist) :
  Collection.live (Collection.invoke_all ms (Collection.create cct0, h)).2
                  (Collection.invoke_all ms (Collection.create cct0, h)).1 ∧
  is_Some (Collection.encode
             (Collection.invoke_all ms (Collection.create cct0, h)).2
             (Collection.invoke_all ms (Collection.create cct0, h)).1 bl) ∧
  is_Some (Collection.used_bytes
             (Collection.invoke_all ms (Collection.create cct0, h)).2
             (Collection.invoke_all ms (Collection.create cct0, h)).1).1.
Proof.
  assert (Collection.live (Collection.invoke_all ms (Collection.create cct0, h)).2
            (Collection.invoke_all ms (Collection.create cct0, h)).1) as Hlive.
  { assert (Collection.live h (Collection.create (ghobject_t := ghobject_t) cct0))
      as Hinit by apply map_Forall_empty.
    revert Hinit. generalize (Collection.create (ghobject_t := ghobject_t) cct0).
    revert h. induction ms as [|m ms IH]; intros h c Hc; simpl; [done|].
    pose proof (live_invoke m c h Hc) as Hm.
    destruct (Collection.invoke m (c, h)) as [c1 h1]. by apply IH. }
  split_and!; [done|by apply encode_live|].
  unfold Collection.used_bytes. simpl.
  rewrite used_bytes_loop_sum; [by eexists| |done].
  intros [k r] Hin%elem_of_inorder. by apply (Hlive k r).
Qed.

(** *** The lock *)




(** *** The variant of the objects *)

Lemma homogeneous_weaken h h' c :
  h ⊆ h' → Collection.live h c → Collection.homogeneous h c →
  Collection.homogeneous h' c.
Proof.
  intros Hsub Hlive Hhom k r Hk o Ho.
  destruct (Hlive k r Hk) as [o0 Ho0].
  rewrite (deref_weaken h h' r o0 Hsub Ho0) in Ho. injection Ho as <-.
  by apply (Hhom k r Hk).
Qed.

Lemma homogeneous_flag h c c' :
  Collection.object_map c' = Collection.object_map c →
  Collection.use_page_set c' = Collection.use_page_set c ∨
    Collection.object_map c = ∅ →
  Collection.homogeneous h c → Collection.homogeneous h c'.
Proof.
  unfold Collection.homogeneous. intros -> [->| ->]; [done|].
  intros _. apply map_Forall_empty.
Qed.

Lemma homogeneous_insert_fresh h c oid (obj : Object.t) :
  Collection.live h c → Collection.homogeneous h c →
  Object.is_paged obj = Collection.use_page_set c →
  map_Forall (λ _ r, ∀ o, deref (<[fresh (dom h) := obj]> h) r = Some o →
                          Object.is_paged o = Collection.use_page_set c)
    (<[oid := Some (fresh (dom h))]> (Collection.object_map c)).
Proof.
  intros Hlive Hhom Hobj. apply map_Forall_insert_2.
  - simpl. rewrite lookup_insert_eq. by intros o [= <-].
  - apply (homogeneous_weaken h); [|done..].
    apply insert_subseteq, not_elem_of_dom, is_fresh.
Qed.

Lemma homogeneous_decode_objects s c h (p : bufferlist) :
  Collection.live h c → Collection.homogeneous h c →
  Collection.live (Collection.decode_objects s c h p).1.2
                  (Collection.decode_objects s c h p).1.1 ∧
  Collection.homogeneous (Collection.decode_objects s c h p).1.2
                         (Collection.decode_objects s c h p).1.1 ∧
  Collection.use_page_set (Collection.decode_objects s c h p).1.1
  = Collection.use_page_set c.
Proof.
  intros Hlive Hhom.
  apply (decode_objects_invariant
           (λ c' h', Collection.live h' c' ∧ Collection.homogeneous h' c' ∧
                     Collection.use_page_set c' = Collection.use_page_set c));
    [| |done].
  - intros c1 h1 o (Hl & Hh & Hf). split_and!; [|
      by apply (homogeneous_weaken h1); [apply new_heap_grows|..]|done].
    by apply (live_weaken h1); [apply new_heap_grows|].
  - intros c1 h1 k o obj (Hl & Hh & Hf) Hv. unfold new. simpl.
    rewrite insert_insert_eq.
    assert (h1 ⊆ <[fresh (dom h1) := obj]> h1) as Hsub
      by apply insert_subseteq, not_elem_of_dom, is_fresh.
    unfold Collection.live, Collection.homogeneous, Collection.emplace.
    destruct (Collection.object_map c1 !! k); simpl.
    + split_and!; [by apply (live_weaken h1)|
                   by apply (homogeneous_weaken h1)|done].
    + split_and!; [| |done].
      * apply map_Forall_insert_2; [|by apply (live_weaken h1)].
        simpl. rewrite lookup_insert_eq. by eexists.
      * apply homogeneous_insert_fresh; [done..|].
        by rewrite Hv, is_paged_new_object.
Qed.

Lemma decode_objects_flag s c h (p : bufferlist) :
  Collection.use_page_set (Collection.decode_objects s c h p).1.1
  = Collection.use_page_set c.
Proof.
  by apply (decode_objects_invariant
              (λ c' _, Collection.use_page_set c' = Collection.use_page_set c)).
Qed.

(** X8: the variant of the objects follows the flag of their collection.
    If every object of a collection has the variant that [use_page_set]
    names, a call keeps it so, provided the call leaves the flag as it was
    or the collection held no object.  Only [decode] writes the flag
    (from the stream); the objects it creates, like those of
    [get_or_create_object], have the variant of the flag at the time of
    their creation. *)
Theorem variant_follows_flag m c h :
  Collection.live h c → Collection.homogeneous h c →
  Collection.use_page_set (Collection.invoke m (c, h)).1
    = Collection.use_page_set c ∨ Collection.object_map c = ∅ →
  Collection.homogeneous (Collection.invoke m (c, h)).2
                         (Collection.invoke m (c, h)).1.
Proof.
  intros Hlive Hhom Hflag. destruct m as [oid|oid|bl|p|]; simpl in *; try done.
  - unfold Collection.get_object. simpl.
    destruct (Collection.object_hash c !! oid); exact Hhom.
  - destruct (Collection.object_hash c !! oid) as [r|] eqn:Hoid.
    + rewrite (get_or_create_object_present _ _ _ _ Hoid). exact Hhom.
    + rewrite (get_or_create_object_absent _ _ _ Hoid).
      unfold Collection.homogeneous. simpl.
      apply homogeneous_insert_fresh; [done..|apply is_paged_new_object].
  - unfold Collection.decode in *.
    destruct (DECODE_START 1 p) as [[hd p1]|e]; [|done].
    destruct (wire_decode_xattr p1) as [[x p2]|e]; [|done].
    destruct (decode_bool p2) as [[b p3]|e]; [|exact Hhom].
    assert (∀ c', Collection.object_map c' = Collection.object_map c →
                  Collection.use_page_set c' = b →
                  b = Collection.use_page_set c ∨ Collection.object_map c = ∅ →
                  Collection.homogeneous h c') as Hstart.
    { intros c' Hm Hb Hor. apply (homogeneous_flag h c); [done| |done].
      rewrite Hb. by destruct Hor; [left|right]. }
    destruct (decode_u32 p3) as [[n p4]|e]; [|by apply Hstart].
    pose proof (homogeneous_decode_objects (N.to_nat n)
                  (Collection.set_use_page_set b (Collection.set_xattr x c))
                  h p4 Hlive) as Hloop.
    pose proof (decode_objects_flag (N.to_nat n)
                  (Collection.set_use_page_set b (Collection.set_xattr x c))
                  h p4) as Hf.
    destruct (Collection.decode_objects _ _ _ _) as [[c' h'] [[u p5]|e]];
      simpl in *; rewrite Hf in Hflag;
      (destruct Hloop as (_ & Hh & _); [by apply Hstart|done]).
Qed.

(** *** Creation and lookup *)

(** X9: [get_object] finds what [get_or_create_object] returned.  After
    [get_or_create_object(k)], [get_object(k)] returns the same reference,
    and [get_object] of every other key returns what it returned before.
    When [k] was absent the reference is to a new object at an address that
    was free: an empty object ([get_size()] is 0, no attribute, no omap
    entry) of the variant that [use_page_set] names, with the page size of
    the configuration when paged. *)
Theorem get_object_after_get_or_create_object c h oid :
  (Collection.get_object oid (Collection.get_or_create_object oid c h).1.2).1
    = (Collection.get_or_create_object oid c h).1.1 ∧
  (∀ oid', oid' ≠ oid →
     (Collection.get_object oid'
        (Collection.get_or_create_object oid c h).1.2).1
     = (Collection.get_object oid' c).1) ∧
  (Collection.object_hash c !! oid = None →
   ∃ a o, (Collection.get_or_create_object oid c h).1.1 = Some a ∧
          h !! a = None ∧
          (Collection.get_or_create_object oid c h).2 !! a = Some o ∧
          Object.get_size o = 0 ∧
          Object.base_of o = Object.empty_base ∧
          Object.is_paged o = Collection.use_page_set c ∧
          o = if Collection.use_page_set c
              then Object.new_PageSetObject
                     (memstore_page_size (_conf (Collection.cct c)))
              else Object.new_BufferlistObject).
Proof.
  unfold Collection.get_object.
  destruct (Collection.object_hash c !! oid) as [r|] eqn:Hoid.
  - rewrite (get_or_create_object_present _ _ _ _ Hoid). simpl.
    rewrite Hoid. split_and!; [done| |done].
    intros oid' _. by destruct (Collection.object_hash c !! oid').
  - rewrite (get_or_create_object_absent _ _ _ Hoid). simpl.
    rewrite lookup_insert_eq. split_and!; [done| |].
    + intros oid' Hne. rewrite lookup_insert_ne by done.
      by destruct (Collection.object_hash c !! oid').
    + intros _. exists (fresh (dom h)), (Collection.new_object c).
      rewrite lookup_insert_eq.
      split_and!; [done|apply not_elem_of_dom, is_fresh|done|..];
        unfold Collection.new_object;
        by destruct (Collection.use_page_set c).
Qed.

(** *** [used_bytes] and creation *)

Lemma used_bytes_total h c :
  Collection.live h c →
  (Collection.used_bytes h c).1 = Some (Collection.total_size h c mod u64_max).
Proof.
  intros Hlive. unfold Collection.used_bytes, Collection.total_size. simpl.
  rewrite used_bytes_loop_sum;
    [|by intros [k r] ?%elem_of_inorder; eapply Hlive|done].
  rewrite N.add_0_l. do 2 f_equal. apply sumN_perm. by rewrite inorder_perm.
Qed.

Lemma size_at_weaken h h' (r : ObjectRef) :
  h ⊆ h' → is_Some (deref h r) →
  Collection.size_at h' r = Collection.size_at h r.
Proof.
  intros Hsub [o Ho]. unfold Collection.size_at.
  by rewrite Ho, (deref_weaken h h' r o Hsub Ho).
Qed.

(** X10: creating an object does not change [used_bytes].  On a collection
    whose references are live and whose indices hold the same keys,
    [used_bytes()] returns after [get_or_create_object(k)] what it returned
    before: a new object has size 0, and an existing one is left alone. *)
Theorem used_bytes_after_get_or_create_object c h oid :
  Collection.live h c → Collection.indices_agree c →
  (Collection.used_bytes (Collection.get_or_create_object oid c h).2
                         (Collection.get_or_create_object oid c h).1.2).1
  = (Collection.used_bytes h c).1.
Proof.
  intros Hlive Hagree.
  pose proof (live_invoke (Collection.call_get_or_create_object oid) c h Hlive)
    as Hlive'. simpl in Hlive'.
  destruct (Collection.get_or_create_object oid c h) as [[r c1] h1] eqn:Hcall.
  cbn [fst snd] in *. rewrite !used_bytes_total by done. do 2 f_equal.
  destruct (Collection.object_hash c !! oid) as [r0|] eqn:Hoid.
  - rewrite (get_or_create_object_present _ _ _ _ Hoid) in Hcall.
    by injection Hcall as <- <- <-.
  - rewrite (get_or_create_object_absent _ _ _ Hoid) in Hcall.
    injection Hcall as <- <- <-. unfold Collection.total_size. simpl.
    assert (Collection.object_map c !! oid = None) as Hmap.
    { apply not_elem_of_dom. rewrite <-Hagree. by apply not_elem_of_dom. }
    rewrite (sumN_perm _ _ (fmap_Permutation _ _ _
               (map_to_list_insert _ _ _ Hmap))).
    rewrite fmap_cons. simpl.
    unfold Collection.size_at at 1. simpl. rewrite lookup_insert_eq.
    cbn [from_option].
    assert (Object.get_size (Collection.new_object c) = 0) as ->
      by (unfold Collection.new_object; by destruct (Collection.use_page_set c)).
    rewrite N.add_0_l. f_equal. apply list_fmap_ext. intros i [k r'] Hi. simpl.
    apply size_at_weaken.
    + apply insert_subseteq, not_elem_of_dom, is_fresh.
    + apply (Hlive k r'). apply elem_of_map_to_list.
      by eapply list_elem_of_lookup_2.
Qed.

End collection_frame.

Section collection_image.
Context `{Countable ghobject_t}.
Context `{BitwiseComparator : Comparator ghobject_t}.
Context `{Encodable ghobject_t} `{!Wire ghobject_t}.
Implicit Types (c : Collection.t ghobject_t) (h : Heap).
Implicit Types (l : list (ghobject_t * ObjectRef)).

(** *** [encode] appends *)

Lemma encode_objects_refs_live h l (bl out : bufferlist) :
  Collection.encode_objects h l bl = Some out →
  ∀ e, e ∈ l → is_Some (deref h e.2).
Proof.
  revert bl. induction l as [|[k r] l IH]; intros bl Hout e He.
  - by apply elem_of_nil in He.
  - simpl in Hout. destruct (deref h r) as [o|] eqn:Hr; [|done].
    apply elem_of_cons in He as [->|He]; [by eexists|]. by eapply IH.
Qed.

Lemma encode_objects_shift h l (bl : bufferlist) :
  Collection.encode_objects h l bl
  = (λ img, bl ++ img) <$> Collection.encode_objects h l [].
Proof.
  destruct (Collection.encode_objects h l bl) as [out|] eqn:Hbl.
  - destruct (encode_objects_live h l [] (encode_objects_refs_live _ _ _ _ Hbl))
      as [img Himg].
    rewrite Himg. simpl. f_equal.
    apply encode_objects_image in Hbl as ->.
    by apply encode_objects_image in Himg as ->.
  - destruct (Collection.encode_objects h l []) as [img|] eqn:Himg; [|done].
    destruct (encode_objects_live h l bl (encode_objects_refs_live _ _ _ _ Himg))
      as [out Hout]. congruence.
Qed.

Lemma Collection_encode_shift h c (bl : bufferlist) :
  Collection.encode h c bl = (λ img, bl ++ img) <$> Collection.encode h c [].
Proof.
  destruct (Collection.encode h c bl) as [out|] eqn:Hbl;
    destruct (Collection.encode h c []) as [img|] eqn:Himg; simpl.
  - apply Collection_encode_envelope in Hbl as ->.
    by apply Collection_encode_envelope in Himg as ->.
  - exfalso. revert Hbl Himg. unfold Collection.encode.
    destruct (ENCODE_START 1 1 bl) as [bl1 pos1].
    destruct (ENCODE_START 1 1 []) as [bl2 pos2].
    rewrite (encode_objects_shift h _ (encode_u32 _ (encode_bool _ (wire_encode_xattr _ bl1)))).
    rewrite (encode_objects_shift h _ (encode_u32 _ (encode_bool _ (wire_encode_xattr _ bl2)))).
    by destruct (Collection.encode_objects h _ []).
  - exfalso. revert Hbl Himg. unfold Collection.encode.
    destruct (ENCODE_START 1 1 bl) as [bl1 pos1].
    destruct (ENCODE_START 1 1 []) as [bl2 pos2].
    rewrite (encode_objects_shift h _ (encode_u32 _ (encode_bool _ (wire_encode_xattr _ bl1)))).
    rewrite (encode_objects_shift h _ (encode_u32 _ (encode_bool _ (wire_encode_xattr _ bl2)))).
    by destruct (Collection.encode_objects h _ []).
  - done.
Qed.

(** X14: [encode] appends.  The bytes that are in the buffer before the
    call are there after it, followed by an image that does not depend on
    them: the envelope (version 1, compatible to 1, length of the payload)
    around the attributes, the flag, the object count and the entries.
    The call is defined exactly when every reference of [object_map] is
    live. *)
Theorem collection_encode_appends h c (bl : bufferlist) :
  Collection.encode h c bl
    = (λ img, bl ++ img) <$> Collection.encode h c [] ∧
  (∀ img, Collection.encode h c [] = Some img →
          img = envelope 1 1 (Collection.fields h c)) ∧
  (is_Some (Collection.encode h c bl) ↔ Collection.live h c).
Proof.
  split_and!; [apply Collection_encode_shift| |].
  - intros img Himg. by apply Collection_encode_envelope in Himg.
  - split; [|apply encode_live].
    intros [out Hout] k r Hk. revert Hout. unfold Collection.encode.
    destruct (ENCODE_START 1 1 bl) as [bl1 pos1].
    destruct (Collection.encode_objects _ _ _) as [bl2|] eqn:Hobjs; [|done].
    intros _.
    apply (encode_objects_refs_live _ _ _ _ Hobjs (k, r)).
    by apply elem_of_inorder.
Qed.

(** *** The image depends on the contents only *)

Lemma encode_objects_contents h h1 l l1 (bl : bufferlist) :
  (λ e, (e.1, deref h e.2)) <$> l = (λ e, (e.1, deref h1 e.2)) <$> l1 →
  Collection.encode_objects h l bl = Collection.encode_objects h1 l1 bl.
Proof.
  revert l1 bl. induction l as [|[k r] l IH]; intros [|[k1 r1] l1] bl Hv;
    try done.
  rewrite !fmap_cons in Hv. simpl in Hv. injection Hv as -> Hr Hv.
  simpl. rewrite Hr. destruct (deref h1 r1); [|done]. by apply IH.
Qed.

Lemma inorder_contents `{!ComparatorLaws ghobject_t} h h1
    (om om1 : gmap ghobject_t ObjectRef) :
  dom om1 = dom om →
  (∀ k, om1 !! k ≫= deref h1 = om !! k ≫= deref h) →
  (λ e, (e.1, deref h e.2)) <$> inorder om
  = (λ e, (e.1, deref h1 e.2)) <$> inorder om1.
Proof.
  intros Hdom Hobj.
  pose proof (inorder_keys_same_dom om1 om Hdom) as Hkeys.
  apply list_eq. intros i. rewrite !list_lookup_fmap.
  assert ((inorder om1).*1 !! i = (inorder om).*1 !! i) as Hi
    by (by rewrite Hkeys).
  rewrite !list_lookup_fmap in Hi.
  destruct (inorder om !! i) as [[k r]|] eqn:Hl;
    destruct (inorder om1 !! i) as [[k1 r1]|] eqn:Hl1; try done.
  simpl in *. injection Hi as ->.
  apply inorder_lookup_Some in Hl, Hl1.
  pose proof (Hobj k) as Hk. rewrite Hl, Hl1 in Hk. simpl in Hk.
  by rewrite Hk.
Qed.

(** X15: the image of a collection depends on its contents only.  Two
    collections with the same attributes, the same flag, the same keys in
    [object_map] and, under every key, equal objects have the same image,
    wherever the objects are in the heap and whatever the lock history, the
    configuration and [object_hash] are. *)
Theorem encode_depends_on_contents `{!ComparatorLaws ghobject_t}
    h c h1 c1 (bl : bufferlist) :
  Collection.xattr c1 = Collection.xattr c →
  Collection.use_page_set c1 = Collection.use_page_set c →
  dom (Collection.object_map c1) = dom (Collection.object_map c) →
  (∀ k, Collection.object_map c1 !! k ≫= deref h1
        = Collection.object_map c !! k ≫= deref h) →
  Collection.encode h1 c1 bl = Collection.encode h c bl.
Proof.
  intros Hx Hf Hdom Hobj. unfold Collection.encode.
  destruct (ENCODE_START 1 1 bl) as [bl1 pos].
  rewrite Hx, Hf, <-!size_dom, Hdom.
  by rewrite (encode_objects_contents h h1 (inorder (Collection.object_map c))
                (inorder (Collection.object_map c1)) _
                (inorder_contents h h1 _ _ Hdom Hobj)).
Qed.

End collection_image.

(** ** Concrete collections

    The identifiers of the objects are strings here, ordered and encoded as
    strings. *)

Definition sample_cct : CephContext :=
  {| _conf := {| memstore_page_set := true; memstore_page_size := 4096 |} |}.

(** Two paged objects of [2^63] bytes each: sparse, no page allocated. *)
Definition huge_object : Object.t :=
  Object.PageSetObject Object.empty_base (PageSet.create 4096) (2 ^ 63).

Definition huge_heap : Heap := <[1%positive := huge_object]> (<[2%positive := huge_object]> ∅).

Definition huge_collection : Collection.t string :=
  {| Collection.cct := sample_cct; Collection.use_page_set := true;
     Collection.object_hash := <["a" := Some 1%positive]> (<["b" := Some 2%positive]> ∅);
     Collection.object_map := <["a" := Some 1%positive]> (<["b" := Some 2%positive]> ∅);
     Collection.xattr := ∅; Collection.lock := [] |}.

Lemma huge_collection_live : Collection.live huge_heap huge_collection.
Proof.
  intros k r. unfold huge_collection, huge_heap. simpl.
  rewrite !lookup_insert. repeat case_decide; intros [= <-]; by eexists.
Qed.

(** C5 as stated fails: the sum of the sizes is [2^64], [used_bytes()]
    returns [0]; and the call leaves the lock untouched, where
    [get_object] takes it for reading. *)
Lemma used_bytes_counterexample :
  Collection.total_size huge_heap huge_collection = 2 ^ 64 ∧
  (Collection.used_bytes huge_heap huge_collection).1 = Some 0 ∧
  (Collection.used_bytes huge_heap huge_collection).1
    ≠ Some (Collection.total_size huge_heap huge_collection) ∧
  Collection.lock (Collection.used_bytes huge_heap huge_collection).2 = [] ∧
  Collection.lock (Collection.get_object "a" huge_collection).2
    = [Collection.get_read; Collection.unlock].
Proof. vm_compute. split_and!; done. Qed.

Lemma used_bytes_wrapped_sum_witness :
  Collection.live huge_heap huge_collection ∧
  (Collection.used_bytes huge_heap huge_collection).1
    = Some (Collection.total_size huge_heap huge_collection mod u64_max).
Proof.
  split; [exact huge_collection_live|].
  exact (proj1 (used_bytes_wrapped_sum huge_heap huge_collection
                  huge_collection_live)).
Defined.

Definition contiguous_cct : CephContext :=
  {| _conf := {| memstore_page_set := false; memstore_page_size := 4096 |} |}.

(** One contiguous object with a payload, an attribute and two omap keys,
    in a collection of the contiguous variant. *)
Definition sample_object : Object.t :=
  Object.BufferlistObject
    {| Object.xattr := <["user" := [x61; x62]]> ∅;
       Object.omap_header := [x01];
       Object.omap := <["a" := [x31]]> (<["c" := [x33]]> ∅) |}
    [x68; x65; x6c; x6c; x6f].

Definition sample_heap : Heap := <[1%positive := sample_object]> ∅.

Definition sample_collection : Collection.t string :=
  {| Collection.cct := contiguous_cct; Collection.use_page_set := false;
     Collection.object_hash := <["obj1" := Some 1%positive]> ∅;
     Collection.object_map := <["obj1" := Some 1%positive]> ∅;
     Collection.xattr := <["pool" := [x07]]> ∅; Collection.lock := [] |}.

Definition sample_image : bufferlist :=
  Eval vm_compute in
    default [] (Collection.encode sample_heap sample_collection []).

Ltac fits_now :=
  repeat match goal with
    | |- _ ∧ _ => split
    | |- map_Forall _ ∅ => apply map_Forall_empty
    | |- map_Forall _ (<[_ := _]> _) => apply map_Forall_insert_2
    | |- fits_bytes _ => vm_compute; reflexivity
    | |- fits_string _ => vm_compute; reflexivity
    | |- fits_u64 _ => vm_compute; reflexivity
    | |- (_ < _)%N => vm_compute; reflexivity
    | |- _ => progress cbn [Object.xattr Object.omap Object.omap_header
                            PageSet.pages PageSet.page_size]
    end.

Lemma sample_object_fits : Object.fits sample_object.
Proof. unfold Object.fits, sample_object, Object.fits_base, fits_map. fits_now. Qed.

Lemma sample_collection_fits : Collection.fits sample_heap sample_collection.
Proof.
  unfold Collection.fits, sample_collection, fits_map. cbn [Collection.xattr
    Collection.object_map Collection.use_page_set]. split_and!; [fits_now..|].
  apply map_Forall_insert_2; [|apply map_Forall_empty].
  split; [vm_compute; reflexivity|]. exists sample_object.
  split_and!; [reflexivity|apply sample_object_fits|reflexivity].
Qed.

Lemma collection_encode_decode_witness :
  Collection.encode sample_heap sample_collection [] = Some sample_image ∧
  fits_bytes sample_image ∧
  Collection.fits sample_heap sample_collection ∧
  ∃ c1 h1,
    Collection.decode (Collection.create sample_cct) ∅ sample_image
      = (c1, h1, Ok (tt, [])) ∧
    Collection.object_map c1 !! "obj1" ≫= deref h1 = Some sample_object.
Proof.
  assert (Collection.encode sample_heap sample_collection [] = Some sample_image)
    as Henc by (vm_compute; reflexivity).
  assert (fits_bytes sample_image) as Hbl by (vm_compute; reflexivity).
  split_and!; [done|done|apply sample_collection_fits|].
  destruct (collection_encode_decode sample_heap sample_collection sample_image
              [] sample_cct ∅ Henc Hbl sample_collection_fits)
    as (c1 & h1 & Hdec & _ & _ & _ & _ & Hobj).
  exists c1, h1. rewrite app_nil_r in Hdec. split; [exact Hdec|].
  rewrite Hobj. reflexivity.
Defined.

Lemma sample_collection_live : Collection.live sample_heap sample_collection.
Proof.
  apply map_Forall_insert_2; [by eexists|apply map_Forall_empty].
Qed.

Lemma sample_collection_homogeneous :
  Collection.homogeneous sample_heap sample_collection.
Proof.
  apply map_Forall_insert_2; [|apply map_Forall_empty].
  intros o [= <-]. reflexivity.
Qed.

Lemma variant_follows_flag_witness :
  Collection.live sample_heap sample_collection ∧
  Collection.homogeneous sample_heap sample_collection ∧
  Collection.homogeneous
    (Collection.invoke (Collection.call_get_or_create_object "obj2")
       (sample_collection, sample_heap)).2
    (Collection.invoke (Collection.call_get_or_create_object "obj2")
       (sample_collection, sample_heap)).1.
Proof.
  split_and!; [apply sample_collection_live|apply sample_collection_homogeneous|].
  apply (variant_follows_flag (Collection.call_get_or_create_object "obj2")
           sample_collection sample_heap sample_collection_live
           sample_collection_homogeneous).
  left. vm_compute. reflexivity.
Defined.

Lemma used_bytes_after_get_or_create_object_witness :
  Collection.live sample_heap sample_collection ∧
  Collection.indices_agree sample_collection ∧
  (Collection.used_bytes
     (Collection.get_or_create_object "obj2" sample_collection sample_heap).2
     (Collection.get_or_create_object "obj2" sample_collection sample_heap).1.2).1
  = Some 5.
Proof.
  split_and!; [apply sample_collection_live|reflexivity|].
  rewrite (used_bytes_after_get_or_create_object sample_collection sample_heap
             "obj2" sample_collection_live eq_refl).
  vm_compute. reflexivity.
Defined.

Lemma omap_iterator_walk_witness :
  let h := (new scenario_object ∅).2 in
  let self := OmapIteratorImpl.create (new scenario_object ∅).1 in
  OmapIteratorImpl.omap_of h self = Some (<["a" := [x31]]> (<["c" := [x33]]> ∅)) ∧
  ∃ first, OmapIteratorImpl.seek_to_first h self = Some (0, first) ∧
           OmapIteratorImpl.advance 3 h first = None.
Proof.
  assert (OmapIteratorImpl.omap_of (new scenario_object ∅).2
            (OmapIteratorImpl.create (new scenario_object ∅).1)
          = Some (<["a" := [x31]]> (<["c" := [x33]]> ∅))) as Hm
    by (vm_compute; reflexivity).
  split; [exact Hm|].
  destruct (omap_iterator_walk _ _ _ Hm) as (first & Hfirst & _ & Hend & _).
  exists first. split; [exact Hfirst|exact Hend].
Defined.

Lemma omap_iterator_seek_key_witness :
  let h := (new scenario_object ∅).2 in
  let self := OmapIteratorImpl.create (new scenario_object ∅).1 in
  OmapIteratorImpl.omap_of h self = Some (<["a" := [x31]]> (<["c" := [x33]]> ∅)) ∧
  OmapIteratorImpl.lower_bound h "b" self = OmapIteratorImpl.upper_bound h "b" self.
Proof.
  assert (OmapIteratorImpl.omap_of (new scenario_object ∅).2
            (OmapIteratorImpl.create (new scenario_object ∅).1)
          = Some (<["a" := [x31]]> (<["c" := [x33]]> ∅))) as Hm
    by (vm_compute; reflexivity).
  split; [exact Hm|].
  exact (omap_iterator_seek_key _ _ _ "b" Hm).
Defined.

(** The same contents at another address, in a collection with another
    configuration and a lock history. *)
Definition moved_heap : Heap := <[7%positive := sample_object]> ∅.

Definition moved_collection : Collection.t string :=
  {| Collection.cct := sample_cct; Collection.use_page_set := false;
     Collection.object_hash := ∅;
     Collection.object_map := <["obj1" := Some 7%positive]> ∅;
     Collection.xattr := <["pool" := [x07]]> ∅;
     Collection.lock := [Collection.get_read; Collection.unlock] |}.

Lemma encode_depends_on_contents_witness :
  dom (Collection.object_map moved_collection)
    = dom (Collection.object_map sample_collection) ∧
  (∀ k, Collection.object_map moved_collection !! k ≫= deref moved_heap
        = Collection.object_map sample_collection !! k ≫= deref sample_heap) ∧
  Collection.encode moved_heap moved_collection [] = Some sample_image.
Proof.
  assert (dom (Collection.object_map moved_collection)
          = dom (Collection.object_map sample_collection)) as Hdom.
  { unfold moved_collection, sample_collection. simpl.
    by rewrite !dom_insert_L. }
  assert (∀ k, Collection.object_map moved_collection !! k ≫= deref moved_heap
             = Collection.object_map sample_collection !! k
                 ≫= deref sample_heap) as Hobj.
  { intros k. unfold moved_collection, sample_collection. simpl.
    destruct (decide (k = "obj1")) as [->|Hk].
    - by rewrite !lookup_insert_eq.
    - by rewrite !lookup_insert_ne, !lookup_empty. }
  split_and!; [exact Hdom|exact Hobj|].
  rewrite (encode_depends_on_contents (ComparatorLaws0 := string_comparator_laws)
             sample_heap sample_collection moved_heap moved_collection []
             eq_refl eq_refl Hdom Hobj).
  vm_compute. reflexivity.
Defined.
